(** * Brawl Stars map rotation helper: [utils/brawl_maps.py]

    A shallow embedding of the rotation selector and of the announcement
    formatter, with the properties of the specification proved about them.

    Conventions of the embedding.
    - Python [str] is [string]; a literal is the UTF-8 encoding of the source
      literal, and concatenation of encodings is the encoding of the
      concatenation.
    - Python [int] is [Z]; [len] is [Z.of_nat] of [length].
    - A [dict] keeps insertion order and [list(d.items())] exposes it, so
      the rotation table is an association list in source order.
    - An exception is a value of [exn]; a call returns an [outcome] together
      with the store it leaves behind, because what a call did before it
      raised stays done. *)

From Stdlib Require Import String Ascii List ZArith Lia Bool Permutation.
Import ListNotations.

Local Open Scope Z_scope.
Local Open Scope list_scope.

(** ** Exceptions and outcomes *)

Inductive exn : Type :=
| ValueError (msg : string)
| IndexError (msg : string).

Definition outcome (A : Type) : Type := (exn + A)%type.

Definition is_ValueError {A : Type} (o : outcome A) : Prop :=
  exists msg, o = inl (ValueError msg).

Definition raises {A : Type} (o : outcome A) : Prop :=
  exists e, o = inl e.

(** ** Data model *)

(** [@dataclass(frozen=True) class MapDefinition]. *)
Record MapDefinition : Type := Build_MapDefinition {
  mode : string;
  map_name : string;
  emoji : string
}.

(** The value stored under a mode: a dict read only at its keys ["emoji"]
    and ["maps"].  [None] is an absent key. *)
Record Payload : Type := Build_Payload {
  emoji_key : option string;
  maps_key : option (list string)
}.

(** [dict.get(key, default)] on one key of a payload. *)
Definition get {A : Type} (entry : option A) (default : A) : A :=
  match entry with
  | Some v => v
  | None => default
  end.

(** [list(d.items())] of a [Mapping[str, Mapping[...]]]. *)
Definition rotation : Type := list (string * Payload).

Definition entry (e : string) (ms : list string) : Payload :=
  Build_Payload (Some e) (Some ms).

Definition MAP_ROTATION : rotation :=
  [ ("Razzia de gemmes"%string,
     entry "<:GemGrab:1436473738765008976>"
           ["Mine hard-rock"; "Tunnel de mine"; "Bruissements"]%string);
    ("Brawlball"%string,
     entry "<:Brawlball:1436473735573143562>"
           ["Tir au buts"; "Super plage"; "Triple Dribble"]%string);
    ("Hors-jeu"%string,
     entry "<:KnockOut:1436473703083937914>"
           ["Rocher de la belle"; "Ravin du bras d'or"; "À découvert"]%string);
    ("Braquage"%string,
     entry "<:Heist:1436473730812481546>"
           ["C'est chaud patate"; "Arrêt au stand"; "Zone sécurisée"]%string);
    ("Zone réservée"%string,
     entry "<:HotZone:1436473698491175137>"
           ["Duel de scarabées"; "Cercle de feu"; "Stratégies parallèles"]%string);
    ("Prime"%string,
     entry "<:Bounty:1436473727519948962>"
           ["Cachette secrète"; "Étoile filante"; "Mille-feuille"]%string) ].

(** [d[key]] on the rotation table. *)
Fixpoint lookup (key : string) (t : rotation) : option Payload :=
  match t with
  | [] => None
  | (k, v) :: t' => if String.eqb key k then Some v else lookup key t'
  end.

(** The invariant of the data model: keys are unique (a dict) and every
    mode has a non-empty list of maps. *)
Definition unique_modes (t : rotation) : Prop := NoDup (map fst t).

Definition maps_configured (t : rotation) : Prop :=
  Forall (fun kv => get (maps_key (snd kv)) [] <> []) t.

Definition rotation_invariant (t : rotation) : Prop :=
  unique_modes t /\ maps_configured t.

(** ** The random source

    [random.Random] as the module uses it: [sample(population, k)] and
    [choice(seq)], each a function of the generator's state that returns
    the state it leaves. *)

Class RandomSource (G : Type) : Type := {
  sample : forall {A : Type}, list A -> Z -> G -> outcome (list A) * G;
  choice : forall {A : Type}, list A -> G -> outcome A * G
}.

(** [chosen] are the elements of [population] at [positions]. *)
Definition drawn_at {A : Type} (population : list A)
    (positions : list nat) (chosen : list A) : Prop :=
  Forall2 (fun i x => nth_error population i = Some x) positions chosen.

(** The documented contract of [random.Random]: [sample] returns [k]
    elements taken at pairwise distinct positions of the population when
    [0 <= k <= len(population)]; [choice] returns an element of a non-empty
    sequence. *)
Class RandomSourceLaws (G : Type) {RS : RandomSource G} : Prop := {
  sample_contract :
    forall (A : Type) (population : list A) (k : Z) (s : G),
      0 <= k <= Z.of_nat (length population) ->
      exists positions chosen s',
        sample population k s = (inr chosen, s') /\
        drawn_at population positions chosen /\
        NoDup positions /\
        Z.of_nat (length chosen) = k;
  choice_contract :
    forall (A : Type) (seq : list A) (s : G),
      seq <> [] ->
      exists x s', choice seq s = (inr x, s') /\ In x seq
}.

(** ** The store and the monad of calls *)

(** What a call can read or change: the module global [MAP_ROTATION] and
    the state of the random source it was handed. *)
Record world (G : Type) : Type := World {
  table : rotation;
  rng : G
}.
Arguments World {G} _ _.
Arguments table {G} _.
Arguments rng {G} _.

Definition M (G A : Type) : Type := world G -> outcome A * world G.

Definition ret {G A : Type} (a : A) : M G A := fun w => (inr a, w).

Definition raise {G A : Type} (e : exn) : M G A := fun w => (inl e, w).

Definition bind {G A B : Type} (c : M G A) (k : A -> M G B) : M G B :=
  fun w =>
    match c w with
    | (inl e, w') => (inl e, w')
    | (inr a, w') => k a w'
    end.

Notation "x <- c ;; k" := (bind c (fun x => k))
  (at level 61, c at next level, right associativity).

(** A pure call that may raise. *)
Definition lift {G A : Type} (o : outcome A) : M G A := fun w => (o, w).

(** [list(MAP_ROTATION.items())]. *)
Definition items {G : Type} : M G rotation := fun w => (inr (table w), w).

(** A method call on the random source: it runs on the generator's state
    and leaves the rest of the store alone. *)
Definition on_rng {G A : Type} (f : G -> outcome A * G) : M G A :=
  fun w => let (o, s') := f (rng w) in (o, World (table w) s').

(** [for x in xs: acc = body(acc, x)]. *)
Fixpoint for_each {G A B : Type} (xs : list A) (acc : B)
    (body : B -> A -> M G B) : M G B :=
  match xs with
  | [] => ret acc
  | x :: xs' => acc' <- body acc x ;; for_each xs' acc' body
  end.

(** ** The program *)

Definition no_maps_message (mode : string) : string :=
  ("mode '" ++ mode ++ "' has no maps configured")%string.

Definition _normalise_count (count available : Z) : outcome Z :=
  if count <=? 0 then
    inl (ValueError "count must be strictly positive")
  else if available <=? 0 then
    inl (ValueError "no map modes configured")
  else if count >? available then
    inl (ValueError "requested map count exceeds the number of modes")
  else inr count.

Section Selector.

Context {G : Type} {RS : RandomSource G}.

(** The body of the loop over the selected modes. *)
Definition select_map (selection : list MapDefinition)
    (item : string * Payload) : M G (list MapDefinition) :=
  let (mode, payload) := item in
  let maps := get (maps_key payload) [] in
  let emoji := get (emoji_key payload) EmptyString in
  match maps with
  | [] => raise (ValueError (no_maps_message mode))
  | _ :: _ =>
      chosen <- on_rng (choice maps) ;;
      ret (selection ++ [Build_MapDefinition mode chosen emoji])
  end.

(** The body of the function, lines 87-88 and 92-102, in a store whose
    generator is the one the body draws from, [random_source].  Line 89,
    which says which generator that is, is in
    [pick_unique_mode_maps_call] below. *)
Definition pick_unique_mode_maps (count : Z) : M G (list MapDefinition) :=
  available_modes <- items ;;
  normalised <-
    lift (_normalise_count count (Z.of_nat (length available_modes))) ;;
  selected_modes <- on_rng (sample available_modes normalised) ;;
  selection <- for_each selected_modes [] select_map ;;
  ret selection.

End Selector.

(** ** The [rng] argument and the generator of the module

    [random_source = rng or random], line 89: the body draws from the
    object passed as [rng] when there is one and it is truthy, and from
    the generator of the module [random] otherwise.  An instance of
    [random.Random] itself is always truthy, since the class defines
    neither [__bool__] nor [__len__]; an instance of a subclass can be
    falsy. *)

(** The argument: [None], or an object, given by the value of [bool(rng)]
    and the state of the generator. *)
Inductive rng_argument (G : Type) : Type :=
| rng_None
| rng_object (truth : bool) (state : G).
Arguments rng_None {G}.
Arguments rng_object {G} _ _.

(** What the call finds in the process besides its arguments: the table
    and the generator of the module. *)
Record process (G : Type) : Type := Process {
  module_table : rotation;
  module_random : G
}.
Arguments Process {G} _ _.
Arguments module_table {G} _.
Arguments module_random {G} _.

(** The state of [rng or random]. *)
Definition random_source {G : Type} (argument : rng_argument G)
    (p : process G) : G :=
  match argument with
  | rng_object true s => s
  | _ => module_random p
  end.

(** The call with its [rng] argument.  It returns the outcome, the process
    and the argument object as the call leaves them.  The lines before
    line 89 read no generator, so the body is run as a whole on the
    generator line 89 names, and the generator it leaves is stored back
    where it came from. *)
Definition pick_unique_mode_maps_call {G : Type} {RS : RandomSource G}
    (count : Z) (argument : rng_argument G) (p : process G)
    : outcome (list MapDefinition) * process G * rng_argument G :=
  match argument with
  | rng_object true s =>
      let (o, w) := pick_unique_mode_maps count (World (module_table p) s) in
      (o, Process (table w) (module_random p), rng_object true (rng w))
  | _ =>
      let (o, w) :=
        pick_unique_mode_maps count
          (World (module_table p) (module_random p)) in
      (o, Process (table w) (rng w), argument)
  end.

(** [sep.join(chunks)]: the items in order, [sep] before each but the
    first. *)
Definition join (sep : string) (chunks : list string) : string :=
  match chunks with
  | [] => EmptyString
  | first :: others =>
      fold_left (fun acc chunk => (acc ++ sep ++ chunk)%string) others first
  end.

Definition newline : string := String (ascii_of_nat 10) EmptyString.

Definition format_rotation_message (selection : list MapDefinition) : string :=
  let formatted_chunks :=
    fold_left
      (fun chunks item =>
         chunks ++ [(emoji item ++ " **" ++ mode item ++ "** — "
                     ++ map_name item)%string])
      selection [] in
  join newline formatted_chunks.

(** The announcement as the specification words it: one line per item,
    [emoji **mode** — map_name], a newline between consecutive lines and
    none after the last. *)
Definition announcement_line (item : MapDefinition) : string :=
  (emoji item ++ " **" ++ mode item ++ "** — " ++ map_name item)%string.

Fixpoint announcement (selection : list MapDefinition) : string :=
  match selection with
  | [] => EmptyString
  | [item] => announcement_line item
  | item :: rest =>
      (announcement_line item ++ newline ++ announcement rest)%string
  end.

(** ** [random.Random] over its primitive draw

    [Random.sample] and [Random.choice] are written over one primitive,
    [_randbelow(n)], a draw in [range(n)].  [sample] is given in its pool
    form, the one the library takes for a population of at most 21
    elements and so for the six modes of [MAP_ROTATION]. *)

Class RandBelow (G : Type) : Type := {
  randbelow : nat -> G -> nat * G
}.

Class RandBelowLaws (G : Type) {RB : RandBelow G} : Prop := {
  randbelow_range :
    forall (n : nat) (s : G), (0 < n)%nat -> (fst (randbelow n s) < n)%nat
}.

(** [pool[j] = pool[n-i-1]], after which the live part of the pool is one
    shorter: the last live element moves to position [j]. *)
Definition swap_out {A : Type} (j : nat) (pool : list A) : list A :=
  match rev pool with
  | [] => []
  | y :: front =>
      let body := rev front in
      if (j <? length body)%nat
      then firstn j body ++ y :: skipn (Datatypes.S j) body
      else body
  end.

Section RandomOverRandBelow.

Context {G : Type} {RB : RandBelow G}.

(** [for i in range(k): j = randbelow(n-i); result[i] = pool[j];
    pool[j] = pool[n-i-1]]. *)
Fixpoint sample_pool {A : Type} (k : nat) (pool : list A) (s : G)
    : list A * G :=
  match k with
  | O => ([], s)
  | Datatypes.S k' =>
      let (j, s1) := randbelow (length pool) s in
      match nth_error pool j with
      | Some x =>
          let (rest, s2) := sample_pool k' (swap_out j pool) s1 in
          (x :: rest, s2)
      | None => ([], s1)
      end
  end.

Definition Random_sample {A : Type} (population : list A) (k : Z) (s : G)
    : outcome (list A) * G :=
  let n := Z.of_nat (length population) in
  if (0 <=? k) && (k <=? n) then
    let (result, s') := sample_pool (Z.to_nat k) population s in
    (inr result, s')
  else
    (inl (ValueError "Sample larger than population or is negative"), s).

Definition Random_choice {A : Type} (seq : list A) (s : G)
    : outcome A * G :=
  match seq with
  | [] => (inl (IndexError "Cannot choose from an empty sequence"), s)
  | _ :: _ =>
      let (i, s') := randbelow (length seq) s in
      match nth_error seq i with
      | Some x => (inr x, s')
      | None => (inl (IndexError "list index out of range"), s')
      end
  end.

#[export] Instance Random_source : RandomSource G := {
  sample := @Random_sample;
  choice := @Random_choice
}.

End RandomOverRandBelow.

(** A scripted generator: the draws it will answer, in order, each reduced
    into the requested range; an exhausted script answers [0]. *)
Definition script : Type := list nat.

Definition script_randbelow (n : nat) (s : script) : nat * script :=
  match s with
  | [] => (O, [])
  | d :: s' => (Nat.modulo d n, s')
  end.

#[export] Instance script_RandBelow : RandBelow script := {
  randbelow := script_randbelow
}.

(** ** The Mersenne Twister behind [random.Random(seed)]

    The generator of the interpreter, MT19937 seeded by [init_by_array],
    as far as [sample] and [choice] use it: 32-bit outputs, [getrandbits]
    for at most 32 bits, and [_randbelow] by rejection.  Words are [Z] in
    [0, 2^32); every store into the state is masked as the C code masks
    it. *)

Definition mask32 (x : Z) : Z := Z.land x 0xffffffff.

(** [mt[i] = v]. *)
Fixpoint set_word (i : nat) (v : Z) (mt : list Z) : list Z :=
  match mt, i with
  | [], _ => []
  | _ :: mt', O => v :: mt'
  | x :: mt', Datatypes.S i' => x :: set_word i' v mt'
  end.

(** [mt[i]]. *)
Definition word (mt : list Z) (i : nat) : Z := nth i mt 0.

(** [init_genrand(s)]: [mt[i] = 1812433253 * (mt[i-1] ^ (mt[i-1] >> 30))
    + i]. *)
Fixpoint init_genrand_from (n : nat) (i prev : Z) : list Z :=
  match n with
  | O => []
  | Datatypes.S n' =>
      let v := mask32 (1812433253 * Z.lxor prev (Z.shiftr prev 30) + i) in
      v :: init_genrand_from n' (i + 1) v
  end.

Definition init_genrand (s : Z) : list Z :=
  mask32 s :: init_genrand_from 623 1 (mask32 s).

(** [i++; if (i >= N) { mt[0] = mt[N-1]; i = 1; }]. *)
Definition next_index (mt : list Z) (i : nat) : list Z * nat :=
  if (624 <=? Datatypes.S i)%nat
  then (set_word 0 (word mt 623) mt, 1%nat)
  else (mt, Datatypes.S i).

(** The first loop of [init_by_array], [k] rounds from position [i] of the
    state and [j] of the key. *)
Fixpoint mix_key (k : nat) (key mt : list Z) (i j : nat) : list Z * nat :=
  match k with
  | O => (mt, i)
  | Datatypes.S k' =>
      let prev := word mt (i - 1) in
      let v :=
        mask32 (Z.lxor (word mt i)
                  (Z.lxor prev (Z.shiftr prev 30) * 1664525)
                + nth j key 0 + Z.of_nat j) in
      let (mt', i') := next_index (set_word i v mt) i in
      let j' := if (length key <=? Datatypes.S j)%nat then O
                else Datatypes.S j in
      mix_key k' key mt' i' j'
  end.

(** The second loop of [init_by_array]. *)
Fixpoint mix_index (k : nat) (mt : list Z) (i : nat) : list Z :=
  match k with
  | O => mt
  | Datatypes.S k' =>
      let prev := word mt (i - 1) in
      let v :=
        mask32 (Z.lxor (word mt i)
                  (Z.lxor prev (Z.shiftr prev 30) * 1566083941)
                - Z.of_nat i) in
      let (mt', i') := next_index (set_word i v mt) i in
      mix_index k' mt' i'
  end.

Definition init_by_array (key : list Z) : list Z :=
  let mt := init_genrand 19650218 in
  let (mt1, i) := mix_key (Nat.max 624 (length key)) key mt 1 0 in
  set_word 0 0x80000000 (mix_index 623 mt1 i).

(** The regeneration of the state, word [kk] from the words [kk], [kk+1]
    and [kk+397] (indices modulo 624), in place and in increasing [kk]. *)
Definition twist_word (mt : list Z) (kk : nat) : Z :=
  let y :=
    Z.lor (Z.land (word mt kk) 0x80000000)
          (Z.land (word mt (Nat.modulo (kk + 1) 624)) 0x7fffffff) in
  Z.lxor (Z.lxor (word mt (Nat.modulo (kk + 397) 624)) (Z.shiftr y 1))
         (if Z.odd y then 0x9908b0df else 0).

Fixpoint twist_from (n kk : nat) (mt : list Z) : list Z :=
  match n with
  | O => mt
  | Datatypes.S n' =>
      twist_from n' (Datatypes.S kk) (set_word kk (twist_word mt kk) mt)
  end.

Definition temper (y : Z) : Z :=
  let y := Z.lxor y (Z.shiftr y 11) in
  let y := Z.lxor y (Z.land (Z.shiftl y 7) 0x9d2c5680) in
  let y := Z.lxor y (Z.land (Z.shiftl y 15) 0xefc60000) in
  Z.lxor y (Z.shiftr y 18).

Record mt19937 : Type := Build_mt19937 {
  words : list Z;
  index : nat
}.

Definition genrand_uint32 (s : mt19937) : Z * mt19937 :=
  let (mt, i) :=
    if (624 <=? index s)%nat
    then (twist_from 624 0 (words s), O)
    else (words s, index s) in
  (temper (word mt i), Build_mt19937 mt (Datatypes.S i)).

(** [random.Random(a)] for an integer seed [0 <= a < 2^32], whose key is
    the one word [a]. *)
Definition Random (a : Z) : mt19937 :=
  Build_mt19937 (init_by_array [a]) 624.

(** [getrandbits(k)] for [0 < k <= 32]. *)
Definition getrandbits (k : Z) (s : mt19937) : Z * mt19937 :=
  let (y, s') := genrand_uint32 s in (Z.shiftr y (32 - k), s').

(** [int.bit_length] of a positive integer. *)
Definition bit_length (n : Z) : Z := Z.log2 n + 1.

(** [r = getrandbits(k); while r >= n: r = getrandbits(k)].  The loop of
    the library has no bound; here it gives up after [patience] draws. *)
Fixpoint randbelow_retry (patience : nat) (n k : Z) (s : mt19937)
    : option (Z * mt19937) :=
  match patience with
  | O => None
  | Datatypes.S patience' =>
      let (r, s') := getrandbits k s in
      if r <? n then Some (r, s') else randbelow_retry patience' n k s'
  end.

Definition patience : nat := 64.

(** [_randbelow(n)]; a run that gave up answers [0] and keeps the state. *)
Definition mt_randbelow (n : nat) (s : mt19937) : nat * mt19937 :=
  match randbelow_retry patience (Z.of_nat n) (bit_length (Z.of_nat n)) s with
  | Some (r, s') => (Z.to_nat r, s')
  | None => (O, s)
  end.

#[export] Instance mt19937_RandBelow : RandBelow mt19937 := {
  randbelow := mt_randbelow
}.

(** The successive answers of [_randbelow] for the given sizes, [None]
    where the loop gave up. *)
Fixpoint randbelow_run (sizes : list nat) (s : mt19937) : list (option nat) :=
  match sizes with
  | [] => []
  | n :: sizes' =>
      match
        randbelow_retry patience (Z.of_nat n) (bit_length (Z.of_nat n)) s
      with
      | Some (r, s') => Some (Z.to_nat r) :: randbelow_run sizes' s'
      | None => [None]
      end
  end.

(** The items of [MAP_ROTATION] for Braquage, Prime and Razzia de gemmes,
    in that order. *)
Definition Braquage_maps : list string :=
  ["C'est chaud patate"; "Arrêt au stand"; "Zone sécurisée"]%string.

Definition Prime_maps : list string :=
  ["Cachette secrète"; "Étoile filante"; "Mille-feuille"]%string.

Definition Razzia_maps : list string :=
  ["Mine hard-rock"; "Tunnel de mine"; "Bruissements"]%string.

Definition Braquage_Prime_Razzia : rotation :=
  [ ("Braquage"%string, entry "<:Heist:1436473730812481546>" Braquage_maps);
    ("Prime"%string, entry "<:Bounty:1436473727519948962>" Prime_maps);
    ("Razzia de gemmes"%string,
     entry "<:GemGrab:1436473738765008976>" Razzia_maps) ].

(** The states [Random(0)] goes through in a call for three maps. *)
Definition seed0 : mt19937 := Random 0.

Definition seed0_sampled : mt19937 :=
  snd (Random_sample MAP_ROTATION 3 seed0).

Definition seed0_chose_1 : mt19937 :=
  snd (Random_choice Braquage_maps seed0_sampled).

Definition seed0_chose_2 : mt19937 :=
  snd (Random_choice Prime_maps seed0_chose_1).

Definition seed0_chose_3 : mt19937 :=
  snd (Random_choice Razzia_maps seed0_chose_2).

(** The six draws that select Braquage, Prime and Razzia de gemmes, then
    the second, third and second map of these modes. *)
Definition seed0_draws : script := [3; 3; 0; 1; 2; 1]%nat.

Definition heist_bounty_gems : list MapDefinition :=
  [ Build_MapDefinition "Braquage" "Arrêt au stand"
      "<:Heist:1436473730812481546>";
    Build_MapDefinition "Prime" "Mille-feuille"
      "<:Bounty:1436473727519948962>";
    Build_MapDefinition "Razzia de gemmes" "Tunnel de mine"
      "<:GemGrab:1436473738765008976>" ].

(** Tables that miss a key: a mode without ["maps"], a mode without
    ["emoji"]. *)
Definition mapless_table : rotation :=
  [ ("Solo"%string, Build_Payload (Some "<:S:1>"%string) None) ].

Definition emojiless_table : rotation :=
  [ ("Duo"%string, Build_Payload None (Some ["Carte 1"%string])) ].

(** A mode with maps followed by a mode without. *)
Definition mixed_table : rotation := emojiless_table ++ mapless_table.

(** What the loop body makes of a selected entry. *)
Definition configured (item : string * Payload) : Prop :=
  get (maps_key (snd item)) [] <> [].

Definition built_from (item : string * Payload) (d : MapDefinition) : Prop :=
  mode d = fst item /\
  In (map_name d) (get (maps_key (snd item)) []) /\
  emoji d = get (emoji_key (snd item)) EmptyString.

(** ** Observing a run

    A random source that counts the calls made on it. *)

Record counted (G : Type) : Type := Counted {
  inner : G;
  sample_calls : nat;
  choice_calls : nat
}.
Arguments Counted {G} _ _ _.
Arguments inner {G} _.
Arguments sample_calls {G} _.
Arguments choice_calls {G} _.

#[export] Instance counted_source {G : Type} {RS : RandomSource G}
    : RandomSource (counted G) := {
  sample A population k c :=
    let (o, s') := sample population k (inner c) in
    (o, Counted s' (Datatypes.S (sample_calls c)) (choice_calls c));
  choice A seq c :=
    let (o, s') := choice seq (inner c) in
    (o, Counted s' (sample_calls c) (Datatypes.S (choice_calls c)))
}.

(** ** Reading an announcement back *)

Definition newline_char : ascii := ascii_of_nat 10.

(** [newline_char not in s]. *)
Fixpoint no_newline (s : string) : bool :=
  match s with
  | EmptyString => true
  | String c s' => negb (Ascii.eqb c newline_char) && no_newline s'
  end.

(** [s.split(newline)]: the pieces between consecutive newlines, one piece
    for a string without any. *)
Fixpoint split_lines (s : string) : list string :=
  match s with
  | EmptyString => [EmptyString]
  | String c s' =>
      match split_lines s' with
      | [] => []
      | piece :: pieces =>
          if Ascii.eqb c newline_char
          then EmptyString :: piece :: pieces
          else String c piece :: pieces
      end
  end.

Definition plain (d : MapDefinition) : bool :=
  no_newline (emoji d) && no_newline (mode d) && no_newline (map_name d).

(** A table none of whose strings holds a newline. *)
Definition plain_entry (item : string * Payload) : bool :=
  no_newline (fst item)
  && forallb no_newline (get (maps_key (snd item)) [])
  && no_newline (get (emoji_key (snd item)) EmptyString).

Definition plain_table (t : rotation) : bool := forallb plain_entry t.

(** ** The test suite: [tests/test_brawl_maps.py]

    A test is the boolean of its assertions; an exception that escapes it
    makes it [false].  The tests that fix a seed are given over the store
    they run in. *)

(** [{item.mode for item in selection}]. *)
Definition mode_set (selection : list MapDefinition) : list string :=
  nodup string_dec (map mode selection).

(** [payload = MAP_ROTATION[item.mode]; item.map_name in payload["maps"];
    item.emoji == payload["emoji"]]. *)
Definition uses_rotation_entry (t : rotation) (item : MapDefinition) : bool :=
  match lookup (mode item) t with
  | None => false
  | Some payload =>
      match maps_key payload, emoji_key payload with
      | Some maps, Some e =>
          existsb (String.eqb (map_name item)) maps
          && String.eqb (emoji item) e
      | _, _ => false
      end
  end.

Definition returns_three_distinct_modes {G : Type} {RS : RandomSource G}
    (w : world G) : bool :=
  match pick_unique_mode_maps 3 w with
  | (inl _, _) => false
  | (inr selection, w') =>
      (length selection =? 3)%nat
      && (length (mode_set selection) =? 3)%nat
      && forallb (uses_rotation_entry (table w')) selection
  end.

Definition test_pick_unique_mode_maps_returns_three_distinct_modes : bool :=
  returns_three_distinct_modes (World MAP_ROTATION (Random 42)).

(** [with pytest.raises(ValueError)], twice, the second call in the store
    the first one left. *)
Definition rejects_invalid_count {G : Type} {RS : RandomSource G}
    (w : world G) : bool :=
  match pick_unique_mode_maps 0 w with
  | (inl (ValueError _), w1) =>
      match
        pick_unique_mode_maps (Z.of_nat (length (table w1)) + 1) w1
      with
      | (inl (ValueError _), _) => true
      | _ => false
      end
  | _ => false
  end.

(** * Properties *)

(** ** The table *)

Lemma MAP_ROTATION_unique_modes : unique_modes MAP_ROTATION.
Proof.
  unfold unique_modes, MAP_ROTATION; simpl.
  repeat (constructor; [simpl; intuition discriminate|]).
  constructor.
Qed.

Lemma MAP_ROTATION_maps_configured : maps_configured MAP_ROTATION.
Proof.
  unfold maps_configured, MAP_ROTATION.
  repeat (constructor; [simpl; discriminate|]).
  constructor.
Qed.

Lemma MAP_ROTATION_invariant : rotation_invariant MAP_ROTATION.
Proof.
  split; [apply MAP_ROTATION_unique_modes | apply MAP_ROTATION_maps_configured].
Qed.

Lemma lookup_unique (t : rotation) (m : string) (p : Payload) :
  unique_modes t -> In (m, p) t -> lookup m t = Some p.
Proof.
  unfold unique_modes.
  induction t as [|[k v] t IH]; simpl; intros Hnd Hin; [contradiction|].
  inversion Hnd as [|? ? Hnotin Hnd']; subst.
  destruct Hin as [Heq|Hin].
  - inversion Heq; subst. now rewrite String.eqb_refl.
  - destruct (String.eqb_spec m k) as [->|Hne].
    + exfalso. apply Hnotin. change k with (fst (k, p)). now apply in_map.
    + now apply IH.
Qed.

(** ** Validation of the count *)

Lemma normalise_count_valid (count available : Z) :
  1 <= count <= available -> _normalise_count count available = inr count.
Proof.
  intros [Hlo Hhi]. unfold _normalise_count.
  destruct (Z.leb_spec count 0); [lia|].
  destruct (Z.leb_spec available 0); [lia|].
  destruct (Z.gtb_spec count available); [lia|reflexivity].
Qed.

Lemma normalise_count_invalid (count available : Z) :
  ~ (1 <= count <= available) ->
  exists msg, _normalise_count count available = inl (ValueError msg).
Proof.
  intros Hbad. unfold _normalise_count.
  destruct (Z.leb_spec count 0); [eauto|].
  destruct (Z.leb_spec available 0); [eauto|].
  destruct (Z.gtb_spec count available); [eauto|lia].
Qed.

Lemma normalise_count_identity (count available r : Z) :
  _normalise_count count available = inr r -> r = count.
Proof.
  unfold _normalise_count.
  destruct (count <=? 0); [discriminate|].
  destruct (available <=? 0); [discriminate|].
  destruct (count >? available); [discriminate|].
  now inversion 1.
Qed.

(** ** The loop over the selected modes *)

Lemma world_eta {G : Type} (w : world G) : World (table w) (rng w) = w.
Proof. now destruct w. Qed.

Lemma configured_dec (item : string * Payload) :
  {configured item} + {get (maps_key (snd item)) [] = []}.
Proof.
  unfold configured. destruct (get (maps_key (snd item)) []).
  - now right.
  - left; discriminate.
Qed.

(** A selection is wholly configured, or has a first mode without maps. *)
Lemma first_unconfigured (chosen : rotation) :
  Forall configured chosen \/
  exists before m p after,
    chosen = before ++ (m, p) :: after /\
    Forall configured before /\
    get (maps_key p) [] = [].
Proof.
  induction chosen as [|[m p] rest IH].
  - left; constructor.
  - destruct (configured_dec (m, p)) as [Hc|He].
    + destruct IH as [Hall|(before & m' & p' & after & -> & Hb & He)].
      * left; now constructor.
      * right. exists ((m, p) :: before), m', p', after.
        repeat split; auto.
    + right. exists [], m, p, rest. repeat split; auto.
Qed.

Lemma unconfigured_not_all (before after : rotation) (m : string)
    (p : Payload) :
  get (maps_key p) [] = [] ->
  ~ Forall configured (before ++ (m, p) :: after).
Proof.
  intros He Hall. apply Forall_app in Hall as [_ Hall].
  inversion Hall as [|? ? Hc _]; subst. now apply Hc.
Qed.

Section Loop.

Context {G : Type} {RS : RandomSource G}.

Lemma select_map_unconfigured (selection : list MapDefinition) (m : string)
    (p : Payload) (w : world G) :
  get (maps_key p) [] = [] ->
  select_map selection (m, p) w = (inl (ValueError (no_maps_message m)), w).
Proof.
  intros He. unfold select_map. now rewrite He.
Qed.

Lemma select_map_keeps_table (selection : list MapDefinition)
    (item : string * Payload) (w : world G) :
  table (snd (select_map selection item w)) = table w.
Proof.
  destruct item as [m p]. unfold select_map.
  destruct (get (maps_key p) []) as [|x maps]; [reflexivity|].
  unfold bind, on_rng, ret.
  destruct (choice (x :: maps) (rng w)) as [[e|c] s']; reflexivity.
Qed.

Lemma for_each_keeps_table (chosen : rotation) :
  forall (selection : list MapDefinition) (w : world G),
    table (snd (for_each chosen selection select_map w)) = table w.
Proof.
  induction chosen as [|item rest IH]; intros selection w; simpl.
  - reflexivity.
  - unfold bind.
    pose proof (select_map_keeps_table selection item w) as Hk.
    destruct (select_map selection item w) as [[e|acc] w1]; simpl in *.
    + exact Hk.
    + now rewrite IH.
Qed.

Lemma pick_keeps_table (count : Z) (w : world G) :
  table (snd (pick_unique_mode_maps count w)) = table w.
Proof.
  unfold pick_unique_mode_maps, bind, items, lift, on_rng, ret.
  destruct (_normalise_count count (Z.of_nat (length (table w))))
    as [e|normalised]; [reflexivity|].
  destruct (sample (table w) normalised (rng w)) as [[e|chosen] s1];
    [reflexivity|].
  pose proof (for_each_keeps_table chosen [] (World (table w) s1)) as Hk.
  destruct (for_each chosen [] select_map (World (table w) s1))
    as [[e|selection] w2]; exact Hk.
Qed.

(** A rejected count raises at once and leaves the store as it was. *)
Lemma pick_rejects (count : Z) (w : world G) :
  ~ (1 <= count <= Z.of_nat (length (table w))) ->
  exists msg, pick_unique_mode_maps count w = (inl (ValueError msg), w).
Proof.
  intros Hbad.
  destruct (normalise_count_invalid _ _ Hbad) as [msg Hmsg].
  exists msg.
  unfold pick_unique_mode_maps, bind, items, lift. now rewrite Hmsg.
Qed.

(** An accepted count runs the sample and then the loop. *)
Lemma pick_accepts (count : Z) (w : world G) :
  1 <= count <= Z.of_nat (length (table w)) ->
  pick_unique_mode_maps count w =
  match sample (table w) count (rng w) with
  | (inl e, s1) => (inl e, World (table w) s1)
  | (inr chosen, s1) => for_each chosen [] select_map (World (table w) s1)
  end.
Proof.
  intros Hok.
  unfold pick_unique_mode_maps, bind, items, lift, on_rng, ret.
  rewrite (normalise_count_valid _ _ Hok).
  destruct (sample (table w) count (rng w)) as [[e|chosen] s1];
    [reflexivity|].
  now destruct (for_each chosen [] select_map (World (table w) s1))
    as [[e|selection] w2].
Qed.

Context {RL : RandomSourceLaws G}.

Lemma select_map_configured (selection : list MapDefinition)
    (item : string * Payload) (w : world G) :
  configured item ->
  exists d s',
    select_map selection item w
    = (inr (selection ++ [d]), World (table w) s') /\
    built_from item d.
Proof.
  destruct item as [m p]. unfold configured, select_map; simpl.
  destruct (get (maps_key p) []) as [|x maps] eqn:Hmaps; [congruence|].
  intros _.
  destruct (choice_contract _ (x :: maps) (rng w)) as (c & s' & Hc & Hin);
    [discriminate|].
  exists (Build_MapDefinition m c (get (emoji_key p) EmptyString)), s'.
  split.
  - unfold bind, on_rng, ret. now rewrite Hc.
  - unfold built_from; simpl. now rewrite Hmaps.
Qed.

Lemma for_each_configured (chosen : rotation) :
  forall (selection : list MapDefinition) (w : world G),
    Forall configured chosen ->
    exists built s',
      for_each chosen selection select_map w
      = (inr (selection ++ built), World (table w) s') /\
      Forall2 built_from chosen built.
Proof.
  induction chosen as [|item rest IH]; intros selection w Hall; simpl.
  - exists [], (rng w). rewrite app_nil_r, world_eta.
    split; [reflexivity|constructor].
  - inversion Hall as [|? ? Hitem Hrest]; subst.
    destruct (select_map_configured selection item w Hitem)
      as (d & s1 & Hstep & Hd).
    destruct (IH (selection ++ [d]) (World (table w) s1) Hrest)
      as (built & s2 & Hloop & Hbuilt).
    exists (d :: built), s2. split.
    + unfold bind. rewrite Hstep, Hloop. simpl.
      now rewrite <- app_assoc.
    + now constructor.
Qed.

Lemma for_each_unconfigured (before after : rotation) (m : string)
    (p : Payload) :
  forall (selection : list MapDefinition) (w : world G),
    Forall configured before ->
    get (maps_key p) [] = [] ->
    exists s',
      for_each (before ++ (m, p) :: after) selection select_map w
      = (inl (ValueError (no_maps_message m)), World (table w) s').
Proof.
  induction before as [|item rest IH]; intros selection w Hall He;
    cbn [app for_each].
  - exists (rng w). unfold bind.
    rewrite (select_map_unconfigured _ _ _ _ He). now rewrite world_eta.
  - inversion Hall as [|? ? Hitem Hrest]; subst.
    destruct (select_map_configured selection item w Hitem)
      as (d & s1 & Hstep & _).
    destruct (IH (selection ++ [d]) (World (table w) s1) Hrest He)
      as (s2 & Hloop).
    exists s2. unfold bind. rewrite Hstep. exact Hloop.
Qed.

End Loop.

(** ** [Random.sample] and [Random.choice] meet the contract *)

(** Moving the last live element over the drawn one removes exactly the
    drawn one. *)
Lemma firstn_at_split {A : Type} (l1 l2 : list A) (x : A) :
  firstn (length l1) (l1 ++ x :: l2) = l1.
Proof.
  rewrite firstn_app, Nat.sub_diag, firstn_all. simpl. apply app_nil_r.
Qed.

Lemma skipn_past_split {A : Type} (l1 l2 : list A) (x : A) :
  skipn (Datatypes.S (length l1)) (l1 ++ x :: l2) = l2.
Proof.
  rewrite skipn_app, skipn_all2 by lia.
  now replace (Datatypes.S (length l1) - length l1)%nat with 1%nat by lia.
Qed.

Lemma swap_out_perm {A : Type} (pool : list A) (j : nat) (x : A) :
  nth_error pool j = Some x -> Permutation pool (x :: swap_out j pool).
Proof.
  intros Hj. unfold swap_out.
  rewrite <- (rev_involutive pool) in Hj |- * at 1.
  destruct (rev pool) as [|y front]; cbn -[skipn firstn Nat.ltb] in Hj |- *.
  - now destruct j.
  - remember (rev front) as body eqn:Hbody. clear Hbody.
    destruct (Nat.ltb_spec j (length body)) as [Hlt|Hge].
    + rewrite nth_error_app1 in Hj by assumption.
      destruct (nth_error_split _ _ Hj) as (l1 & l2 & -> & <-).
      rewrite firstn_at_split, skipn_past_split, <- app_assoc. simpl.
      rewrite <- Permutation_middle. apply perm_skip.
      apply Permutation_app_head.
      rewrite <- Permutation_cons_append. reflexivity.
    + rewrite nth_error_app2 in Hj by assumption.
      destruct (j - length body)%nat as [|[|i]]; simpl in Hj;
        try discriminate.
      inversion Hj; subst. symmetry. apply Permutation_cons_append.
Qed.

Lemma swap_out_map {A B : Type} (f : A -> B) (j : nat) (pool : list A) :
  swap_out j (map f pool) = map f (swap_out j pool).
Proof.
  unfold swap_out. rewrite <- map_rev.
  destruct (rev pool) as [|y front]; cbn -[skipn firstn Nat.ltb];
    [reflexivity|].
  rewrite <- map_rev, length_map.
  destruct (j <? length (rev front))%nat; [|reflexivity].
  rewrite map_app, firstn_map. cbn [map]. now rewrite skipn_map.
Qed.

Section PoolSampling.

Context {G : Type} {RB : RandBelow G}.

(** The sample of a mapped pool is the mapped sample: draws depend on the
    size of the pool only. *)
Lemma sample_pool_map {A B : Type} (f : A -> B) (k : nat) :
  forall (pool : list A) (s : G),
    sample_pool k (map f pool) s
    = (map f (fst (sample_pool k pool s)), snd (sample_pool k pool s)).
Proof.
  induction k as [|k IH]; intros pool s; simpl; [reflexivity|].
  rewrite length_map.
  destruct (randbelow (length pool) s) as [j s1].
  rewrite nth_error_map.
  destruct (nth_error pool j) as [x|]; simpl; [|reflexivity].
  rewrite swap_out_map, IH.
  now destruct (sample_pool k (swap_out j pool) s1).
Qed.

Context {RBL : RandBelowLaws G}.

Lemma sample_pool_distinct {A : Type} (k : nat) :
  forall (pool : list A) (s : G),
    NoDup pool -> (k <= length pool)%nat ->
    NoDup (fst (sample_pool k pool s)) /\
    incl (fst (sample_pool k pool s)) pool /\
    length (fst (sample_pool k pool s)) = k.
Proof.
  induction k as [|k IH]; intros pool s Hnd Hk; simpl.
  - repeat split; [constructor|intros ? []].
  - pose proof (randbelow_range (length pool) s ltac:(lia)) as Hj.
    destruct (randbelow (length pool) s) as [j s1]; simpl in Hj.
    destruct (nth_error pool j) as [x|] eqn:Hx;
      [|apply nth_error_None in Hx; lia].
    pose proof (swap_out_perm _ _ _ Hx) as Hperm.
    pose proof (Permutation_NoDup Hperm Hnd) as Hnd'.
    inversion Hnd' as [|? ? Hnotin Hrest]; subst.
    pose proof (Permutation_length Hperm) as Hlen; simpl in Hlen.
    destruct (IH (swap_out j pool) s1 Hrest ltac:(lia)) as (Hr & Hin & Hl).
    destruct (sample_pool k (swap_out j pool) s1) as [rest s2]; simpl in *.
    repeat split.
    + constructor; [|exact Hr]. intros Hc. apply Hnotin. now apply Hin.
    + intros y [<-|Hy].
      * eapply nth_error_In; eassumption.
      * apply (Permutation_in _ (Permutation_sym Hperm)).
        right. now apply Hin.
    + now rewrite Hl.
Qed.

Lemma positions_of_population {A : Type} (population : list A) (d : A) :
  population
  = map (fun i => nth i population d) (seq 0 (length population)).
Proof.
  apply nth_ext with (d := d) (d' := (fun i => nth i population d) 0%nat).
  - now rewrite length_map, length_seq.
  - intros i Hi.
    rewrite (map_nth (fun i => nth i population d) (seq 0 _) 0%nat i).
    now rewrite seq_nth.
Qed.

Lemma drawn_at_positions {A : Type} (population : list A) (d : A)
    (positions : list nat) :
  incl positions (seq 0 (length population)) ->
  drawn_at population positions
    (map (fun i => nth i population d) positions).
Proof.
  unfold drawn_at.
  induction positions as [|i rest IH]; intros Hin; simpl; constructor.
  - apply nth_error_nth'.
    assert (Hi : In i (seq 0 (length population))) by (apply Hin; now left).
    apply in_seq in Hi. lia.
  - apply IH. intros j Hj. apply Hin. now right.
Qed.

#[export] Instance Random_source_laws : RandomSourceLaws G.
Proof.
  split.
  - intros A population k s Hk. simpl. unfold Random_sample.
    destruct (Z.leb_spec 0 k); [|lia].
    destruct (Z.leb_spec k (Z.of_nat (length population))); [|lia].
    simpl.
    destruct population as [|d rest] eqn:Hpop.
    + simpl in Hk. assert (k = 0) by lia; subst k. simpl.
      exists [], [], s. repeat split; constructor.
    + rewrite <- Hpop in *.
      set (n := length population) in *.
      destruct (sample_pool_distinct (Z.to_nat k) (seq 0 n) s)
        as (Hnd & Hin & Hlen).
      { apply seq_NoDup. }
      { rewrite length_seq. lia. }
      assert (Hrun : sample_pool (Z.to_nat k) population s
                     = sample_pool (Z.to_nat k)
                         (map (fun i => nth i population d) (seq 0 n)) s).
      { unfold n. now rewrite <- positions_of_population. }
      rewrite Hrun, sample_pool_map.
      destruct (sample_pool (Z.to_nat k) (seq 0 n) s) as [positions s'];
        simpl in *.
      exists positions, (map (fun i => nth i population d) positions), s'.
      repeat split; auto.
      * now apply drawn_at_positions.
      * rewrite length_map, Hlen. lia.
  - intros A seq s Hne. simpl. unfold Random_choice.
    destruct seq as [|x rest] eqn:Hseq; [congruence|].
    rewrite <- Hseq in *.
    pose proof (randbelow_range (length seq) s) as Hi.
    destruct (randbelow (length seq) s) as [i s']; simpl in Hi.
    destruct (nth_error seq i) as [c|] eqn:Hc.
    + exists c, s'. split; [reflexivity|].
      eapply nth_error_In; eassumption.
    + apply nth_error_None in Hc. subst seq. simpl in *. lia.
Qed.

End PoolSampling.

#[export] Instance script_RandBelowLaws : RandBelowLaws script.
Proof.
  split. intros n [|d s] Hn; simpl; [exact Hn|].
  apply Nat.mod_upper_bound. lia.
Qed.

Lemma randbelow_retry_below (tries : nat) (n k : Z) :
  forall (s s' : mt19937) (r : Z),
    randbelow_retry tries n k s = Some (r, s') -> r < n.
Proof.
  induction tries as [|tries IH]; intros s s' r; simpl; [discriminate|].
  destruct (getrandbits k s) as [r0 s0].
  destruct (Z.ltb_spec r0 n) as [Hlt|Hge].
  - intros Heq; inversion Heq; subst. exact Hlt.
  - apply IH.
Qed.

#[export] Instance mt19937_RandBelowLaws : RandBelowLaws mt19937.
Proof.
  split. intros n s Hn. simpl. unfold mt_randbelow.
  destruct (randbelow_retry patience (Z.of_nat n) (bit_length (Z.of_nat n)) s)
    as [[r s']|] eqn:Hr; simpl; [|exact Hn].
  apply randbelow_retry_below in Hr. lia.
Qed.

(** ** The announcement *)

Lemma append_assoc (a b c : string) :
  ((a ++ b) ++ c)%string = (a ++ b ++ c)%string.
Proof.
  induction a as [|ch a IH]; simpl; [reflexivity|now rewrite IH].
Qed.

Lemma chunks_accumulate (selection : list MapDefinition) :
  forall chunks : list string,
    fold_left (fun chunks item => chunks ++ [announcement_line item])
      selection chunks
    = chunks ++ map announcement_line selection.
Proof.
  induction selection as [|item rest IH]; intros chunks; simpl.
  - now rewrite app_nil_r.
  - rewrite IH, <- app_assoc. reflexivity.
Qed.

Lemma join_accumulates (sep : string) (others : list string) :
  forall prefix first : string,
    fold_left (fun acc chunk => (acc ++ sep ++ chunk)%string) others
      (prefix ++ first)%string
    = (prefix
       ++ fold_left (fun acc chunk => (acc ++ sep ++ chunk)%string) others
            first)%string.
Proof.
  induction others as [|chunk rest IH]; intros prefix first; simpl.
  - reflexivity.
  - now rewrite append_assoc, IH.
Qed.

Lemma join_two (sep first second : string) (rest : list string) :
  join sep (first :: second :: rest)
  = (first ++ sep ++ join sep (second :: rest))%string.
Proof.
  unfold join; cbn [fold_left].
  now rewrite !join_accumulates.
Qed.

Lemma join_concat (sep : string) (chunks : list string) :
  join sep chunks = String.concat sep chunks.
Proof.
  induction chunks as [|first [|second rest] IH]; try reflexivity.
  rewrite join_two, IH. reflexivity.
Qed.

Lemma format_lines (selection : list MapDefinition) :
  format_rotation_message selection
  = join newline (map announcement_line selection).
Proof.
  unfold format_rotation_message.
  change (fun chunks item =>
            chunks ++ [(emoji item ++ " **" ++ mode item ++ "** — "
                        ++ map_name item)%string])
    with (fun chunks item => chunks ++ [announcement_line item]).
  now rewrite (chunks_accumulate selection []).
Qed.

(** C3. For every finite sequence of [MapDefinition] the formatter returns
    the lines [emoji **mode** — map_name], one per item in input order,
    joined by a single newline with none after the last, and the empty
    string for the empty sequence.  It is a total function: no input makes
    it raise. *)
Theorem format_rotation_message_lines :
  format_rotation_message [] = EmptyString /\
  (forall item : MapDefinition,
     format_rotation_message [item] = announcement_line item) /\
  (forall (item next : MapDefinition) (rest : list MapDefinition),
     format_rotation_message (item :: next :: rest)
     = (announcement_line item ++ newline
        ++ format_rotation_message (next :: rest))%string) /\
  (forall selection : list MapDefinition,
     format_rotation_message selection = announcement selection /\
     format_rotation_message selection
     = String.concat newline (map announcement_line selection)).
Proof.
  split; [reflexivity|]. split; [reflexivity|]. split.
  - intros item next rest. rewrite !format_lines. simpl map.
    apply join_two.
  - intros selection. split.
    + rewrite format_lines.
      induction selection as [|item [|next rest] IH]; try reflexivity.
      simpl map in *. rewrite join_two, IH. reflexivity.
    + rewrite format_lines. apply join_concat.
Qed.

(** The two-entry announcement of the test suite. *)
Example format_two_entries :
  format_rotation_message
    [ Build_MapDefinition "Mode A" "Carte 1" "<:A:1>";
      Build_MapDefinition "Mode B" "Carte 2" "<:B:2>" ]
  = ("<:A:1> **Mode A** — Carte 1" ++ newline
     ++ "<:B:2> **Mode B** — Carte 2")%string.
Proof. reflexivity. Qed.

(** ** The count *)

(** C8. For [1 <= count <= available] the validation returns [count]
    itself, and whenever it returns at all it returns its argument: it
    never clamps. *)
Theorem normalise_count_never_clamps (count available : Z) :
  (1 <= count <= available ->
   _normalise_count count available = inr count) /\
  (forall r : Z, _normalise_count count available = inr r -> r = count).
Proof.
  split.
  - apply normalise_count_valid.
  - intros r. apply normalise_count_identity.
Qed.

Lemma normalise_count_never_clamps_witness :
  1 <= 3 <= 6 /\ _normalise_count 3 6 = inr 3.
Proof.
  split; [lia|].
  apply (proj1 (normalise_count_never_clamps 3 6)). lia.
Defined.

(** C10. A count that is not positive, or exceeds the number of modes, or
    meets an empty table, is rejected before the random source is asked
    anything: the call raises [ValueError] and the store, the generator's
    state included, is the one the call started from. *)
Theorem pick_rejects_before_drawing {G : Type} {RS : RandomSource G}
    (w : world G) (count : Z) :
  count <= 0 \/ count > Z.of_nat (length (table w)) \/ table w = [] ->
  exists msg,
    pick_unique_mode_maps count w = (inl (ValueError msg), w) /\
    rng (snd (pick_unique_mode_maps count w)) = rng w.
Proof.
  intros Hbad.
  destruct (pick_rejects count w) as [msg Hmsg].
  - intros [Hlo Hhi].
    destruct Hbad as [H|[H|H]]; try lia.
    rewrite H in Hhi; simpl in Hhi; lia.
  - exists msg. rewrite Hmsg. auto.
Qed.

Lemma pick_rejects_before_drawing_witness :
  (7 <= 0 \/ 7 > Z.of_nat (length MAP_ROTATION) \/ MAP_ROTATION = []) /\
  exists msg,
    pick_unique_mode_maps 7 (World MAP_ROTATION seed0_draws)
    = (inl (ValueError msg), World MAP_ROTATION seed0_draws) /\
    rng (snd (pick_unique_mode_maps 7 (World MAP_ROTATION seed0_draws)))
    = seed0_draws.
Proof.
  assert (H : 7 <= 0 \/ 7 > Z.of_nat (length MAP_ROTATION)
              \/ MAP_ROTATION = []).
  { right; left. simpl. lia. }
  split; [exact H|].
  exact (pick_rejects_before_drawing (World MAP_ROTATION seed0_draws) 7 H).
Defined.

(** ** The selection *)

Lemma drawn_at_In {A : Type} (population : list A) (positions : list nat)
    (chosen : list A) :
  drawn_at population positions chosen ->
  Forall (fun x => In x population) chosen.
Proof.
  unfold drawn_at. induction 1 as [|i x ps cs Hi _ IH]; constructor.
  - eapply nth_error_In; eassumption.
  - exact IH.
Qed.

Lemma drawn_at_position {A : Type} (population : list A)
    (positions : list nat) (chosen : list A) (x : A) :
  drawn_at population positions chosen -> In x chosen ->
  exists i, In i positions /\ nth_error population i = Some x.
Proof.
  unfold drawn_at. induction 1 as [|i y ps cs Hi _ IH]; intros Hin.
  - contradiction.
  - destruct Hin as [->|Hin].
    + exists i. split; [now left|assumption].
    + destruct (IH Hin) as (i' & Hi' & Hx). exists i'. split; [now right|auto].
Qed.

(** Distinct positions of a dict's items carry distinct keys. *)
Lemma drawn_at_distinct_modes (t : rotation) (positions : list nat)
    (chosen : rotation) :
  unique_modes t -> drawn_at t positions chosen -> NoDup positions ->
  NoDup (map fst chosen).
Proof.
  unfold unique_modes. intros Hu Hd. pose proof Hd as Hall.
  unfold drawn_at in Hd.
  induction Hd as [|i x ps cs Hi Hrest IH]; intros Hnd; simpl.
  - constructor.
  - inversion Hnd as [|? ? Hnotin Hnd']; subst.
    inversion Hall as [|? ? ? ? _ Hall']; subst.
    constructor; [|now apply IH].
    intros Hin. apply in_map_iff in Hin as (y & Hfst & Hy).
    destruct (drawn_at_position _ _ _ _ Hall' Hy) as (i' & Hi' & Hy').
    assert (Heq : i = i').
    { apply (proj1 (NoDup_nth_error (map fst t)) Hu).
      - rewrite length_map. apply nth_error_Some. congruence.
      - rewrite !nth_error_map, Hi, Hy'. simpl. now rewrite Hfst. }
    subst i'. contradiction.
Qed.

Lemma built_from_modes (chosen : rotation) (selection : list MapDefinition) :
  Forall2 built_from chosen selection ->
  map mode selection = map fst chosen /\ length selection = length chosen.
Proof.
  induction 1 as [|item d cs ds [Hmode _] _ [IHm IHl]]; simpl.
  - split; reflexivity.
  - now rewrite Hmode, IHm, IHl.
Qed.

Lemma built_from_source (chosen : rotation) (selection : list MapDefinition)
    (d : MapDefinition) :
  Forall2 built_from chosen selection -> In d selection ->
  exists item, In item chosen /\ built_from item d.
Proof.
  induction 1 as [|item d' cs ds Hb _ IH]; intros Hin.
  - contradiction.
  - destruct Hin as [->|Hin].
    + exists item. split; [now left|assumption].
    + destruct (IH Hin) as (item' & Hi & Hb'). exists item'.
      split; [now right|assumption].
Qed.

Section Selection.

Context {G : Type} {RS : RandomSource G} {RL : RandomSourceLaws G}.

(** What a call with an accepted count does: it samples [count] entries at
    distinct positions of the table, then either builds one definition per
    entry or stops at the first entry without maps. *)
Lemma pick_cases (count : Z) (w : world G) :
  1 <= count <= Z.of_nat (length (table w)) ->
  exists positions chosen s1,
    sample (table w) count (rng w) = (inr chosen, s1) /\
    drawn_at (table w) positions chosen /\
    NoDup positions /\
    Z.of_nat (length chosen) = count /\
    ((Forall configured chosen /\
      exists selection s2,
        pick_unique_mode_maps count w
        = (inr selection, World (table w) s2) /\
        Forall2 built_from chosen selection)
     \/
     (exists before m p after s2,
        chosen = before ++ (m, p) :: after /\
        Forall configured before /\
        get (maps_key p) [] = [] /\
        pick_unique_mode_maps count w
        = (inl (ValueError (no_maps_message m)), World (table w) s2))).
Proof.
  intros Hok.
  destruct (sample_contract _ (table w) count (rng w))
    as (positions & chosen & s1 & Hs & Hd & Hnd & Hlen); [lia|].
  exists positions, chosen, s1. repeat (split; [assumption|]).
  rewrite (pick_accepts count w Hok), Hs.
  destruct (first_unconfigured chosen)
    as [Hall|(before & m & p & after & -> & Hb & He)].
  - left. split; [assumption|].
    destruct (for_each_configured chosen [] (World (table w) s1) Hall)
      as (built & s2 & Hloop & Hbuilt).
    exists built, s2. split; [exact Hloop|exact Hbuilt].
  - right.
    destruct (for_each_unconfigured before after m p []
                (World (table w) s1) Hb He) as (s2 & Hloop).
    exists before, m, p, after, s2. repeat split; assumption.
Qed.

(** On a table that keeps the invariant every accepted count succeeds. *)
Lemma pick_on_valid_table (count : Z) (w : world G) :
  maps_configured (table w) ->
  1 <= count <= Z.of_nat (length (table w)) ->
  exists positions chosen s1 selection s2,
    sample (table w) count (rng w) = (inr chosen, s1) /\
    drawn_at (table w) positions chosen /\
    NoDup positions /\
    Z.of_nat (length chosen) = count /\
    pick_unique_mode_maps count w = (inr selection, World (table w) s2) /\
    Forall2 built_from chosen selection.
Proof.
  intros Hconf Hok.
  destruct (pick_cases count w Hok)
    as (positions & chosen & s1 & Hs & Hd & Hnd & Hlen & Hcase).
  destruct Hcase
    as [(_ & selection & s2 & Hpick & Hb)
       |(before & m & p & after & s2 & -> & _ & He & _)].
  - exists positions, chosen, s1, selection, s2. repeat split; assumption.
  - exfalso. apply drawn_at_In in Hd.
    apply Forall_app in Hd as [_ Hd].
    inversion Hd as [|? ? Hin _]; subst.
    unfold maps_configured in Hconf.
    rewrite Forall_forall in Hconf. now apply (Hconf _ Hin).
Qed.

(** Whatever a successful call returns was built from sampled entries. *)
Lemma pick_success (count : Z) (w w' : world G)
    (selection : list MapDefinition) :
  pick_unique_mode_maps count w = (inr selection, w') ->
  1 <= count <= Z.of_nat (length (table w)) /\
  exists positions chosen s1,
    sample (table w) count (rng w) = (inr chosen, s1) /\
    drawn_at (table w) positions chosen /\
    NoDup positions /\
    Forall2 built_from chosen selection.
Proof.
  intros Hpick.
  assert (Hok : 1 <= count <= Z.of_nat (length (table w))).
  { destruct (Z_le_dec 1 count) as [Hlo|Hlo];
      [destruct (Z_le_dec count (Z.of_nat (length (table w)))) as [Hhi|Hhi]|];
      [now split| |];
      (destruct (pick_rejects count w) as [msg Hmsg]; [lia|congruence]). }
  split; [exact Hok|].
  destruct (pick_cases count w Hok)
    as (positions & chosen & s1 & Hs & Hd & Hnd & _ & Hcase).
  exists positions, chosen, s1. repeat (split; [assumption|]).
  destruct Hcase
    as [(_ & sel & s2 & Hpick' & Hb)|(? & ? & ? & ? & ? & _ & _ & _ & Hpick')];
    rewrite Hpick' in Hpick; inversion Hpick; subst; assumption.
Qed.

End Selection.

(** C1. For every count between 1 and the number of modes of the table,
    the call returns exactly [count] definitions whose modes are pairwise
    distinct and are, in order, the modes of the entries the random source
    sampled. *)
Theorem pick_count_distinct_modes_in_sample_order {G : Type}
    {RS : RandomSource G} {RL : RandomSourceLaws G} (s : G) (count : Z) :
  1 <= count <= Z.of_nat (length MAP_ROTATION) ->
  exists chosen s1 selection s2,
    sample MAP_ROTATION count s = (inr chosen, s1) /\
    pick_unique_mode_maps count (World MAP_ROTATION s)
    = (inr selection, World MAP_ROTATION s2) /\
    Z.of_nat (length selection) = count /\
    NoDup (map mode selection) /\
    map mode selection = map fst chosen.
Proof.
  intros Hok.
  destruct (pick_on_valid_table count (World MAP_ROTATION s)
              MAP_ROTATION_maps_configured Hok)
    as (positions & chosen & s1 & selection & s2
        & Hs & Hd & Hnd & Hlen & Hpick & Hb).
  exists chosen, s1, selection, s2.
  destruct (built_from_modes _ _ Hb) as [Hmodes Hl].
  repeat split; try assumption.
  - now rewrite Hl.
  - rewrite Hmodes.
    exact (drawn_at_distinct_modes _ _ _ MAP_ROTATION_unique_modes Hd Hnd).
Qed.

Lemma pick_count_distinct_modes_in_sample_order_witness :
  1 <= 3 <= Z.of_nat (length MAP_ROTATION) /\
  exists chosen s1 selection s2,
    sample MAP_ROTATION 3 seed0_draws = (inr chosen, s1) /\
    pick_unique_mode_maps 3 (World MAP_ROTATION seed0_draws)
    = (inr selection, World MAP_ROTATION s2) /\
    Z.of_nat (length selection) = 3 /\
    NoDup (map mode selection) /\
    map mode selection = map fst chosen.
Proof.
  assert (H : 1 <= 3 <= Z.of_nat (length MAP_ROTATION)) by (simpl; lia).
  split; [exact H|].
  exact (pick_count_distinct_modes_in_sample_order seed0_draws 3 H).
Defined.

Lemma MAP_ROTATION_keys (m : string) (p : Payload) :
  In (m, p) MAP_ROTATION -> exists e maps, p = entry e maps.
Proof.
  unfold MAP_ROTATION. intros Hin. simpl in Hin.
  repeat (destruct Hin as [Hin|Hin]; [inversion Hin; eauto|]).
  contradiction.
Qed.

(** C4. Every definition a call returns names a mode of the table, a map
    of that mode's map list and that mode's emoji. *)
Theorem pick_maps_and_emoji_of_table {G : Type} {RS : RandomSource G}
    {RL : RandomSourceLaws G} (s : G) (count : Z)
    (selection : list MapDefinition) (w' : world G) :
  pick_unique_mode_maps count (World MAP_ROTATION s) = (inr selection, w') ->
  Forall
    (fun d =>
       exists payload maps,
         lookup (mode d) MAP_ROTATION = Some payload /\
         maps_key payload = Some maps /\
         In (map_name d) maps /\
         emoji_key payload = Some (emoji d))
    selection.
Proof.
  intros Hpick.
  destruct (pick_success _ _ _ _ Hpick)
    as (_ & positions & chosen & s1 & _ & Hd & _ & Hb).
  cbn [table] in Hd. apply drawn_at_In in Hd. rewrite Forall_forall in Hd.
  apply Forall_forall. intros d Hin.
  destruct (built_from_source _ _ _ Hb Hin) as ([m p] & Hitem & Hbuilt).
  specialize (Hd _ Hitem).
  destruct (MAP_ROTATION_keys _ _ Hd) as (e & maps & ->).
  destruct Hbuilt as (Hmode & Hmap & Hemoji).
  cbn [fst snd entry maps_key emoji_key get] in Hmode, Hmap, Hemoji.
  exists (entry e maps), maps. rewrite Hmode, Hemoji.
  repeat split; try assumption.
  apply lookup_unique; [apply MAP_ROTATION_unique_modes|assumption].
Qed.

Lemma pick_maps_and_emoji_of_table_witness :
  pick_unique_mode_maps 3 (World MAP_ROTATION seed0_draws)
  = (inr heist_bounty_gems, World MAP_ROTATION []) /\
  Forall
    (fun d =>
       exists payload maps,
         lookup (mode d) MAP_ROTATION = Some payload /\
         maps_key payload = Some maps /\
         In (map_name d) maps /\
         emoji_key payload = Some (emoji d))
    heist_bounty_gems.
Proof.
  assert (H : pick_unique_mode_maps 3 (World MAP_ROTATION seed0_draws)
              = (inr heist_bounty_gems, World MAP_ROTATION []))
    by (vm_compute; reflexivity).
  split; [exact H|].
  exact (pick_maps_and_emoji_of_table seed0_draws 3 heist_bounty_gems
           (World MAP_ROTATION []) H).
Defined.

(** ** Errors *)

Lemma unconfigured_Exists (chosen : rotation) :
  Exists (fun item => get (maps_key (snd item)) [] = []) chosen <->
  ~ Forall configured chosen.
Proof.
  split.
  - intros Hex Hall. rewrite Exists_exists in Hex.
    destruct Hex as (item & Hin & He).
    rewrite Forall_forall in Hall. now apply (Hall _ Hin).
  - intros Hnot.
    destruct (first_unconfigured chosen)
      as [Hall|(before & m & p & after & -> & _ & He)]; [contradiction|].
    apply Exists_app. right. now constructor.
Qed.

(** C2. The call raises [ValueError] exactly when the count is not
    positive, or exceeds the number of modes, or the table has no mode, or
    one of the sampled modes has no map to choose from; it raises nothing
    else, and on a count in range over a table whose modes all have maps
    it does not raise. *)
Theorem pick_raises_iff {G : Type} {RS : RandomSource G}
    {RL : RandomSourceLaws G} (w : world G) (count : Z) :
  let n := Z.of_nat (length (table w)) in
  let result := fst (pick_unique_mode_maps count w) in
  (is_ValueError result <->
   count <= 0 \/ count > n \/ n = 0 \/
   (1 <= count <= n /\
    exists chosen s1,
      sample (table w) count (rng w) = (inr chosen, s1) /\
      Exists (fun item => get (maps_key (snd item)) [] = []) chosen)) /\
  (raises result -> is_ValueError result) /\
  (1 <= count <= n -> maps_configured (table w) -> ~ raises result).
Proof.
  intros n result. subst n result.
  destruct (Z_le_dec 1 count) as [Hlo|Hlo];
    [destruct (Z_le_dec count (Z.of_nat (length (table w)))) as [Hhi|Hhi]|].
  - destruct (pick_cases count w (conj Hlo Hhi))
      as (positions & chosen & s1 & Hs & Hd & Hnd & Hlen & Hcase).
    destruct Hcase
      as [(Hall & selection & s2 & Hpick & Hb)
         |(before & m & p & after & s2 & -> & Hbefore & He & Hpick)];
      rewrite Hpick; cbn [fst].
    + split; [split|split].
      * intros [msg Hmsg]; discriminate.
      * intros [H|[H|[H|(_ & chosen' & s1' & Hs' & Hex)]]]; try lia.
        rewrite Hs in Hs'. inversion Hs'; subst.
        apply unconfigured_Exists in Hex. contradiction.
      * intros [e He]; discriminate.
      * intros _ _ [e He]; discriminate.
    + split; [split|split].
      * intros _. right; right; right. split; [lia|].
        exists (before ++ (m, p) :: after), s1. split; [assumption|].
        apply unconfigured_Exists. now apply unconfigured_not_all.
      * intros _. now exists (no_maps_message m).
      * intros _. now exists (no_maps_message m).
      * intros _ Hconf _.
        apply drawn_at_In in Hd. apply Forall_app in Hd as [_ Hd].
        inversion Hd as [|? ? Hin _]; subst.
        unfold maps_configured in Hconf. rewrite Forall_forall in Hconf.
        now apply (Hconf _ Hin).
  - destruct (pick_rejects count w) as [msg Hmsg]; [lia|].
    rewrite Hmsg; cbn [fst]. split; [split|split].
    + intros _. right; left. lia.
    + intros _. now exists msg.
    + intros _. now exists msg.
    + lia.
  - destruct (pick_rejects count w) as [msg Hmsg]; [lia|].
    rewrite Hmsg; cbn [fst]. split; [split|split].
    + intros _. left. lia.
    + intros _. now exists msg.
    + intros _. now exists msg.
    + lia.
Qed.

Lemma pick_raises_iff_witness :
  (is_ValueError
     (fst (pick_unique_mode_maps 1 (World mapless_table seed0_draws)))
   <->
   1 <= 0 \/ 1 > 1 \/ 1 = 0 \/
   (1 <= 1 <= 1 /\
    exists chosen s1,
      sample mapless_table 1 seed0_draws = (inr chosen, s1) /\
      Exists (fun item => get (maps_key (snd item)) [] = []) chosen)) /\
  (raises (fst (pick_unique_mode_maps 1 (World mapless_table seed0_draws)))
   -> is_ValueError
        (fst (pick_unique_mode_maps 1 (World mapless_table seed0_draws)))) /\
  (1 <= 1 <= 1 -> maps_configured mapless_table ->
   ~ raises
       (fst (pick_unique_mode_maps 1 (World mapless_table seed0_draws)))).
Proof.
  exact (pick_raises_iff (World mapless_table seed0_draws) 1).
Defined.

(** C9. When the first sampled entry without maps lacks the ["maps"] key,
    the call raises the very [ValueError] it raises for an empty map list;
    an entry without the ["emoji"] key raises nothing and yields a
    definition whose emoji is the empty string. *)
Theorem pick_missing_keys {G : Type} {RS : RandomSource G}
    {RL : RandomSourceLaws G} (w : world G) (count : Z) (chosen : rotation)
    (s1 : G) :
  1 <= count <= Z.of_nat (length (table w)) ->
  sample (table w) count (rng w) = (inr chosen, s1) ->
  (forall before m p after,
     chosen = before ++ (m, p) :: after ->
     Forall configured before ->
     maps_key p = None \/ maps_key p = Some [] ->
     exists s2,
       pick_unique_mode_maps count w
       = (inl (ValueError (no_maps_message m)), World (table w) s2)) /\
  (Forall configured chosen ->
   exists selection s2,
     pick_unique_mode_maps count w = (inr selection, World (table w) s2) /\
     Forall2
       (fun item d =>
          mode d = fst item /\
          (emoji_key (snd item) = None -> emoji d = EmptyString) /\
          (forall e, emoji_key (snd item) = Some e -> emoji d = e))
       chosen selection).
Proof.
  intros Hok Hs. rewrite (pick_accepts count w Hok), Hs. split.
  - intros before m p after -> Hbefore Hkey.
    assert (He : get (maps_key p) [] = [])
      by (destruct Hkey as [-> | ->]; reflexivity).
    destruct (for_each_unconfigured before after m p []
                (World (table w) s1) Hbefore He) as (s2 & Hloop).
    exists s2. exact Hloop.
  - intros Hall.
    destruct (for_each_configured chosen [] (World (table w) s1) Hall)
      as (built & s2 & Hloop & Hbuilt).
    exists built, s2. split; [exact Hloop|].
    eapply Forall2_impl; [|exact Hbuilt].
    intros item d (Hmode & _ & Hemoji). rewrite Hemoji.
    repeat split; [assumption| |]; intros; subst.
    + now replace (emoji_key (snd item)) with (@None string).
    + now replace (emoji_key (snd item)) with (Some e).
Qed.

Lemma pick_missing_keys_witness :
  1 <= 1 <= Z.of_nat (length mapless_table) /\
  sample mapless_table 1 [0%nat] = (inr mapless_table, ([] : script)) /\
  exists s2,
    pick_unique_mode_maps 1 (World mapless_table [0%nat])
    = (inl (ValueError "mode 'Solo' has no maps configured"),
       World mapless_table s2).
Proof.
  assert (Hok : 1 <= 1 <= Z.of_nat (length mapless_table))
    by (simpl; lia).
  assert (Hs : sample mapless_table 1 [0%nat]
               = (inr mapless_table, ([] : script)))
    by reflexivity.
  split; [exact Hok|]. split; [exact Hs|].
  exact (proj1 (pick_missing_keys (World mapless_table [0%nat]) 1
                  mapless_table [] Hok Hs)
           [] "Solo"%string (Build_Payload (Some "<:S:1>"%string) None) []
           eq_refl (Forall_nil _) (or_introl eq_refl)).
Defined.

(** The same calls, run: the mode without maps raises, the mode without
    emoji yields the empty emoji. *)
Example pick_mapless_run :
  pick_unique_mode_maps 1 (World mapless_table [0%nat])
  = (inl (ValueError "mode 'Solo' has no maps configured"),
     World mapless_table []).
Proof. reflexivity. Qed.

Example pick_emojiless_run :
  pick_unique_mode_maps 1 (World emojiless_table [0%nat; 0%nat])
  = (inr [Build_MapDefinition "Duo" "Carte 1" EmptyString],
     World emojiless_table []).
Proof. reflexivity. Qed.

(** ** The store *)

(** C7. Every entry of [MAP_ROTATION] has a non-empty map list under a
    unique mode name, and no call changes the table: the store a call of
    the selector leaves holds the table it started with, whatever the
    count and the random source, and the formatter is a function of its
    argument that touches no store. *)
Theorem rotation_invariant_kept {G : Type} {RS : RandomSource G} :
  rotation_invariant MAP_ROTATION /\
  (forall (w : world G) (count : Z),
     table (snd (pick_unique_mode_maps count w)) = table w) /\
  (forall (s : G) (count : Z),
     rotation_invariant
       (table (snd (pick_unique_mode_maps count (World MAP_ROTATION s))))) /\
  (forall (w : world G) (selection : list MapDefinition),
     snd (ret (format_rotation_message selection) w) = w).
Proof.
  split; [apply MAP_ROTATION_invariant|]. split; [|split].
  - intros w count. apply pick_keeps_table.
  - intros s count. rewrite pick_keeps_table. apply MAP_ROTATION_invariant.
  - reflexivity.
Qed.

(** ** Reproducibility *)


Lemma pick_call_same_source {G : Type} {RS : RandomSource G} (count : Z)
    (a1 a2 : rng_argument G) (p1 p2 : process G) :
  module_table p1 = module_table p2 ->
  random_source a1 p1 = random_source a2 p2 ->
  fst (fst (pick_unique_mode_maps_call count a1 p1))
  = fst (fst (pick_unique_mode_maps_call count a2 p2)) /\
  random_source (snd (pick_unique_mode_maps_call count a1 p1))
    (snd (fst (pick_unique_mode_maps_call count a1 p1)))
  = random_source (snd (pick_unique_mode_maps_call count a2 p2))
      (snd (fst (pick_unique_mode_maps_call count a2 p2))).
Proof.
  intros Ht Hs.
  destruct p1 as [t1 m1], p2 as [t2 m2]. cbn [module_table] in Ht. subst t2.
  unfold pick_unique_mode_maps_call.
  destruct a1 as [|[|] s1], a2 as [|[|] s2];
    cbn [random_source module_random module_table] in Hs |- *; subst;
    repeat match goal with
           | |- context [pick_unique_mode_maps ?c ?w] =>
               destruct (pick_unique_mode_maps c w) as [? ?]
           end;
    cbn [fst snd random_source module_random]; split; reflexivity.
Qed.

(** The generator a call does not draw from is left as it was. *)
Lemma pick_call_other_generator {G : Type} {RS : RandomSource G}
    (count : Z) (a : rng_argument G) (p : process G) :
  (forall s, a = rng_object true s ->
     module_random (snd (fst (pick_unique_mode_maps_call count a p)))
     = module_random p) /\
  ((forall s, a <> rng_object true s) ->
   snd (pick_unique_mode_maps_call count a p) = a).
Proof.
  unfold pick_unique_mode_maps_call. split.
  - intros s ->.
    now destruct (pick_unique_mode_maps count (World (module_table p) s)).
  - intros Hne. destruct a as [|[|] s];
      [|exfalso; now apply (Hne s)|];
      now destruct (pick_unique_mode_maps count
                      (World (module_table p) (module_random p))).
Qed.

(** A second call in the process the first one left, with a truthy source
    put back in the state the first one started from, repeats the first
    outcome: the first call changed neither the table nor anything else
    the second one reads. *)
Lemma pick_call_again {G : Type} {RS : RandomSource G} (count : Z)
    (s : G) (p : process G) :
  fst (fst (pick_unique_mode_maps_call count (rng_object true s)
              (snd (fst (pick_unique_mode_maps_call count
                           (rng_object true s) p)))))
  = fst (fst (pick_unique_mode_maps_call count (rng_object true s) p)).
Proof.
  unfold pick_unique_mode_maps_call.
  pose proof (pick_keeps_table count (World (module_table p) s)) as Hk.
  destruct (pick_unique_mode_maps count (World (module_table p) s))
    as [o w] eqn:Hrun.
  cbn [fst snd module_table table] in Hk |- *.
  now rewrite Hk, Hrun.
Qed.



(** ** The seeded scenario *)

(** C6. With a random source that samples Braquage, Prime and Razzia de
    gemmes in that order and then chooses Arrêt au stand, Mille-feuille and
    Tunnel de mine, a call for three maps returns exactly these three
    definitions in that order, each with its mode's emoji. *)
Theorem pick_seed0_scenario {G : Type} {RS : RandomSource G}
    (s s1 s2 s3 s4 : G) :
  sample MAP_ROTATION 3 s = (inr Braquage_Prime_Razzia, s1) ->
  choice Braquage_maps s1 = (inr "Arrêt au stand"%string, s2) ->
  choice Prime_maps s2 = (inr "Mille-feuille"%string, s3) ->
  choice Razzia_maps s3 = (inr "Tunnel de mine"%string, s4) ->
  pick_unique_mode_maps 3 (World MAP_ROTATION s)
  = (inr
       [ Build_MapDefinition "Braquage" "Arrêt au stand"
           "<:Heist:1436473730812481546>";
         Build_MapDefinition "Prime" "Mille-feuille"
           "<:Bounty:1436473727519948962>";
         Build_MapDefinition "Razzia de gemmes" "Tunnel de mine"
           "<:GemGrab:1436473738765008976>" ],
     World MAP_ROTATION s4).
Proof.
  intros Hsample Hc1 Hc2 Hc3.
  rewrite pick_accepts by (simpl; lia).
  cbn [table rng]. rewrite Hsample.
  unfold Braquage_Prime_Razzia.
  cbn [for_each select_map entry maps_key emoji_key get].
  unfold bind, on_rng, ret. cbn [table rng].
  unfold Braquage_maps in Hc1. unfold Prime_maps in Hc2.
  unfold Razzia_maps in Hc3.
  unfold Braquage_maps, Prime_maps, Razzia_maps.
  simpl. rewrite Hc1. simpl. rewrite Hc2. simpl. rewrite Hc3.
  reflexivity.
Qed.

Lemma Braquage_Prime_Razzia_items :
  incl Braquage_Prime_Razzia MAP_ROTATION /\
  map fst Braquage_Prime_Razzia
  = ["Braquage"; "Prime"; "Razzia de gemmes"]%string.
Proof.
  split; [|reflexivity].
  intros item Hin. unfold Braquage_Prime_Razzia in Hin. simpl in Hin.
  unfold MAP_ROTATION, Braquage_maps, Prime_maps, Razzia_maps in *.
  simpl. intuition.
Qed.

Lemma pick_seed0_scenario_witness :
  sample MAP_ROTATION 3 seed0 = (inr Braquage_Prime_Razzia, seed0_sampled) /\
  choice Braquage_maps seed0_sampled
  = (inr "Arrêt au stand"%string, seed0_chose_1) /\
  choice Prime_maps seed0_chose_1
  = (inr "Mille-feuille"%string, seed0_chose_2) /\
  choice Razzia_maps seed0_chose_2
  = (inr "Tunnel de mine"%string, seed0_chose_3) /\
  pick_unique_mode_maps 3 (World MAP_ROTATION seed0)
  = (inr
       [ Build_MapDefinition "Braquage" "Arrêt au stand"
           "<:Heist:1436473730812481546>";
         Build_MapDefinition "Prime" "Mille-feuille"
           "<:Bounty:1436473727519948962>";
         Build_MapDefinition "Razzia de gemmes" "Tunnel de mine"
           "<:GemGrab:1436473738765008976>" ],
     World MAP_ROTATION seed0_chose_3).
Proof.
  assert (H0 : sample MAP_ROTATION 3 seed0
               = (inr Braquage_Prime_Razzia, seed0_sampled))
    by (vm_compute; reflexivity).
  assert (H1 : choice Braquage_maps seed0_sampled
               = (inr "Arrêt au stand"%string, seed0_chose_1))
    by (vm_compute; reflexivity).
  assert (H2 : choice Prime_maps seed0_chose_1
               = (inr "Mille-feuille"%string, seed0_chose_2))
    by (vm_compute; reflexivity).
  assert (H3 : choice Razzia_maps seed0_chose_2
               = (inr "Tunnel de mine"%string, seed0_chose_3))
    by (vm_compute; reflexivity).
  exact (conj H0 (conj H1 (conj H2 (conj H3
           (pick_seed0_scenario seed0 seed0_sampled seed0_chose_1
              seed0_chose_2 seed0_chose_3 H0 H1 H2 H3))))).
Defined.

(** The draws of [Random(0)] behind the scenario: none of the six gave
    up, and they are the draws of the scripted source. *)
Example seed0_randbelow_run :
  randbelow_run [6; 5; 4; 3; 3; 3]%nat seed0 = map Some seed0_draws.
Proof. vm_compute. reflexivity. Qed.

Example seed0_script_run :
  pick_unique_mode_maps 3 (World MAP_ROTATION seed0_draws)
  = (inr heist_bounty_gems, World MAP_ROTATION []).
Proof. vm_compute. reflexivity. Qed.

(** [Random(42)], the seed of the first test: three definitions of three
    modes. *)
Example seed42_run :
  fst (pick_unique_mode_maps 3 (World MAP_ROTATION (Random 42)))
  = inr [ Build_MapDefinition "Prime" "Mille-feuille"
            "<:Bounty:1436473727519948962>";
          Build_MapDefinition "Razzia de gemmes" "Tunnel de mine"
            "<:GemGrab:1436473738765008976>";
          Build_MapDefinition "Zone réservée" "Duel de scarabées"
            "<:HotZone:1436473698491175137>" ].
Proof. vm_compute. reflexivity. Qed.

(** * Further properties *)

(** ** Which error, and when *)

Section Rejections.

Context {G : Type} {RS : RandomSource G}.

Lemma pick_rejected_with (count : Z) (w : world G) (e : exn) :
  _normalise_count count (Z.of_nat (length (table w))) = inl e ->
  pick_unique_mode_maps count w = (inl e, w).
Proof.
  intros He. unfold pick_unique_mode_maps, bind, items, lift.
  now rewrite He.
Qed.

Lemma pick_not_positive (count : Z) (w : world G) :
  count <= 0 ->
  pick_unique_mode_maps count w
  = (inl (ValueError "count must be strictly positive"), w).
Proof.
  intros Hc. apply pick_rejected_with. unfold _normalise_count.
  destruct (Z.leb_spec count 0); [reflexivity|lia].
Qed.

Lemma pick_no_modes (count : Z) (w : world G) :
  0 < count -> table w = [] ->
  pick_unique_mode_maps count w
  = (inl (ValueError "no map modes configured"), w).
Proof.
  intros Hc Ht. apply pick_rejected_with. unfold _normalise_count.
  rewrite Ht. simpl.
  destruct (Z.leb_spec count 0); [lia|reflexivity].
Qed.

Lemma pick_too_many (count : Z) (w : world G) :
  table w <> [] -> count > Z.of_nat (length (table w)) ->
  pick_unique_mode_maps count w
  = (inl (ValueError "requested map count exceeds the number of modes"), w).
Proof.
  intros Ht Hc. apply pick_rejected_with. unfold _normalise_count.
  assert (0 < Z.of_nat (length (table w))).
  { destruct (table w); [congruence|simpl; lia]. }
  destruct (Z.leb_spec count 0); [lia|].
  destruct (Z.leb_spec (Z.of_nat (length (table w))) 0); [lia|].
  destruct (Z.gtb_spec count (Z.of_nat (length (table w)))); [reflexivity|lia].
Qed.

End Rejections.

(** X1. The message of the error tells its cause, in this order of
    precedence: a count that is not positive is reported as such whatever
    the table; a positive count on an empty table reports that no mode is
    configured; a count above the number of modes of a non-empty table
    reports the excess; and an error on a count in range names a mode of
    the table that has no maps. *)
Theorem pick_error_messages {G : Type} {RS : RandomSource G}
    {RL : RandomSourceLaws G} (w : world G) (count : Z) :
  (count <= 0 ->
   pick_unique_mode_maps count w
   = (inl (ValueError "count must be strictly positive"), w)) /\
  (0 < count -> table w = [] ->
   pick_unique_mode_maps count w
   = (inl (ValueError "no map modes configured"), w)) /\
  (table w <> [] -> count > Z.of_nat (length (table w)) ->
   pick_unique_mode_maps count w
   = (inl (ValueError "requested map count exceeds the number of modes"),
      w)) /\
  (1 <= count <= Z.of_nat (length (table w)) ->
   forall (e : exn) (w' : world G),
     pick_unique_mode_maps count w = (inl e, w') ->
     exists m p,
       In (m, p) (table w) /\
       get (maps_key p) [] = [] /\
       e = ValueError (no_maps_message m)).
Proof.
  split; [apply pick_not_positive|].
  split; [apply pick_no_modes|].
  split; [apply pick_too_many|].
  intros Hok e w' Hpick.
  destruct (pick_cases count w Hok)
    as (positions & chosen & s1 & _ & Hd & _ & _ & Hcase).
  destruct Hcase
    as [(_ & selection & s2 & Hpick' & _)
       |(before & m & p & after & s2 & -> & _ & He & Hpick')];
    rewrite Hpick' in Hpick; inversion Hpick; subst.
  exists m, p. repeat split; [|assumption].
  apply drawn_at_In in Hd. rewrite Forall_forall in Hd.
  apply Hd, in_elt.
Qed.

Lemma pick_error_messages_witness :
  pick_unique_mode_maps 0 (World mapless_table seed0_draws)
  = (inl (ValueError "count must be strictly positive"),
     World mapless_table seed0_draws) /\
  pick_unique_mode_maps 2 (World mapless_table seed0_draws)
  = (inl (ValueError "requested map count exceeds the number of modes"),
     World mapless_table seed0_draws) /\
  exists m p,
    In (m, p) mapless_table /\
    get (maps_key p) [] = [] /\
    ValueError "mode 'Solo' has no maps configured"
    = ValueError (no_maps_message m).
Proof.
  pose proof (pick_error_messages (World mapless_table seed0_draws) 0)
    as (H0 & _).
  pose proof (pick_error_messages (World mapless_table seed0_draws) 2)
    as (_ & _ & H2 & _).
  pose proof (pick_error_messages (World mapless_table seed0_draws) 1)
    as (_ & _ & _ & H1).
  split; [apply H0; lia|].
  split; [apply H2; [discriminate|simpl; lia]|].
  apply (H1 ltac:(simpl; lia)
           (ValueError "mode 'Solo' has no maps configured")
           (World mapless_table [3; 0; 1; 2; 1]%nat)).
  reflexivity.
Defined.

(** ** Any table *)

(** X2. On any table that keeps the invariant, a count in range returns
    [count] definitions of pairwise distinct modes, and each of them names
    a mode of the table, a map read from that mode's entry and the emoji
    read from it, the empty string when the entry has no emoji. *)
Theorem pick_on_any_table {G : Type} {RS : RandomSource G}
    {RL : RandomSourceLaws G} (w : world G) (count : Z) :
  rotation_invariant (table w) ->
  1 <= count <= Z.of_nat (length (table w)) ->
  exists selection s2,
    pick_unique_mode_maps count w = (inr selection, World (table w) s2) /\
    Z.of_nat (length selection) = count /\
    NoDup (map mode selection) /\
    Forall
      (fun d =>
         exists p,
           lookup (mode d) (table w) = Some p /\
           In (map_name d) (get (maps_key p) []) /\
           emoji d = get (emoji_key p) EmptyString)
      selection.
Proof.
  intros [Hu Hconf] Hok.
  destruct (pick_on_valid_table count w Hconf Hok)
    as (positions & chosen & s1 & selection & s2
        & Hs & Hd & Hnd & Hlen & Hpick & Hb).
  exists selection, s2.
  destruct (built_from_modes _ _ Hb) as [Hmodes Hl].
  split; [assumption|]. split; [now rewrite Hl|]. split.
  - rewrite Hmodes. exact (drawn_at_distinct_modes _ _ _ Hu Hd Hnd).
  - apply Forall_forall. intros d Hin.
    destruct (built_from_source _ _ _ Hb Hin) as ([m p] & Hitem & Hbuilt).
    apply drawn_at_In in Hd. rewrite Forall_forall in Hd.
    destruct Hbuilt as (Hmode & Hmap & Hemoji). cbn [fst snd] in *.
    exists p. rewrite Hmode. repeat split; try assumption.
    apply lookup_unique; [assumption|now apply Hd].
Qed.

Lemma emojiless_table_invariant : rotation_invariant emojiless_table.
Proof.
  split.
  - unfold unique_modes, emojiless_table; simpl.
    constructor; [intros []|constructor].
  - unfold maps_configured, emojiless_table.
    constructor; [simpl; discriminate|constructor].
Qed.

Lemma pick_on_any_table_witness :
  rotation_invariant emojiless_table /\
  1 <= 1 <= Z.of_nat (length emojiless_table) /\
  exists selection s2,
    pick_unique_mode_maps 1 (World emojiless_table seed0_draws)
    = (inr selection, World emojiless_table s2) /\
    Z.of_nat (length selection) = 1 /\
    NoDup (map mode selection) /\
    Forall
      (fun d =>
         exists p,
           lookup (mode d) emojiless_table = Some p /\
           In (map_name d) (get (maps_key p) []) /\
           emoji d = get (emoji_key p) EmptyString)
      selection.
Proof.
  assert (Hok : 1 <= 1 <= Z.of_nat (length emojiless_table))
    by (simpl; lia).
  split; [exact emojiless_table_invariant|]. split; [exact Hok|].
  exact (pick_on_any_table (World emojiless_table seed0_draws) 1
           emojiless_table_invariant Hok).
Defined.

(** X3. Asked for as many maps as the table has modes, the call returns
    every mode of the table exactly once: the modes of the selection are a
    permutation of the keys of the table. *)
Theorem pick_every_mode {G : Type} {RS : RandomSource G}
    {RL : RandomSourceLaws G} (w : world G) :
  rotation_invariant (table w) ->
  table w <> [] ->
  exists selection s2,
    pick_unique_mode_maps (Z.of_nat (length (table w))) w
    = (inr selection, World (table w) s2) /\
    Permutation (map mode selection) (map fst (table w)).
Proof.
  intros [Hu Hconf] Hne.
  assert (Hok : 1 <= Z.of_nat (length (table w))
                <= Z.of_nat (length (table w))).
  { destruct (table w); [congruence|simpl; lia]. }
  destruct (pick_on_valid_table _ w Hconf Hok)
    as (positions & chosen & s1 & selection & s2
        & Hs & Hd & Hnd & Hlen & Hpick & Hb).
  exists selection, s2. split; [assumption|].
  destruct (built_from_modes _ _ Hb) as [Hmodes _]. rewrite Hmodes.
  apply NoDup_Permutation_bis.
  - exact (drawn_at_distinct_modes _ _ _ Hu Hd Hnd).
  - rewrite !length_map. lia.
  - apply drawn_at_In in Hd. rewrite Forall_forall in Hd.
    intros m Hm. apply in_map_iff in Hm as (item & <- & Hitem).
    apply in_map. now apply Hd.
Qed.

Lemma pick_every_mode_witness :
  rotation_invariant MAP_ROTATION /\
  MAP_ROTATION <> [] /\
  exists selection s2,
    pick_unique_mode_maps (Z.of_nat (length MAP_ROTATION))
      (World MAP_ROTATION seed0_draws)
    = (inr selection, World MAP_ROTATION s2) /\
    Permutation (map mode selection) (map fst MAP_ROTATION).
Proof.
  assert (Hne : MAP_ROTATION <> []) by discriminate.
  split; [exact MAP_ROTATION_invariant|]. split; [exact Hne|].
  exact (pick_every_mode (World MAP_ROTATION seed0_draws)
           MAP_ROTATION_invariant Hne).
Defined.

(** ** Calls made on the random source *)

#[export] Instance counted_source_laws {G : Type} {RS : RandomSource G}
    {RL : RandomSourceLaws G} : RandomSourceLaws (counted G).
Proof.
  split.
  - intros A population k c Hk.
    destruct (sample_contract A population k (inner c) Hk)
      as (positions & chosen & s' & Hs & Hrest).
    exists positions, chosen,
      (Counted s' (Datatypes.S (sample_calls c)) (choice_calls c)).
    split; [|exact Hrest]. simpl. now rewrite Hs.
  - intros A seq c Hne.
    destruct (choice_contract A seq (inner c) Hne) as (x & s' & Hc & Hin).
    exists x, (Counted s' (sample_calls c) (Datatypes.S (choice_calls c))).
    split; [|exact Hin]. simpl. now rewrite Hc.
Qed.

Section Counting.

Context {G : Type} {RS : RandomSource G}.

(** One turn of the loop makes no [sample] and at most one [choice]; a
    turn that succeeds made exactly one and added one definition. *)
Lemma select_map_calls (selection : list MapDefinition)
    (item : string * Payload) (w : world (counted G)) :
  let r := select_map selection item w in
  sample_calls (rng (snd r)) = sample_calls (rng w) /\
  (choice_calls (rng (snd r)) <= Datatypes.S (choice_calls (rng w)))%nat /\
  (forall selection',
     fst r = inr selection' ->
     choice_calls (rng (snd r)) = Datatypes.S (choice_calls (rng w)) /\
     length selection' = Datatypes.S (length selection)).
Proof.
  destruct item as [m p]. unfold select_map.
  destruct (get (maps_key p) []) as [|x maps]; simpl.
  - split; [reflexivity|]. split; [lia|]. intros ? Hr; discriminate.
  - unfold bind, on_rng, ret; simpl.
    destruct (choice (x :: maps) (inner (rng w))) as [[e|c] s']; simpl.
    + split; [reflexivity|]. split; [lia|]. intros ? Hr; discriminate.
    + split; [reflexivity|]. split; [lia|]. intros selection' Hr.
      inversion Hr; subst. rewrite length_app. simpl. lia.
Qed.

Lemma for_each_calls (chosen : rotation) :
  forall (selection : list MapDefinition) (w : world (counted G)),
    let r := for_each chosen selection select_map w in
    sample_calls (rng (snd r)) = sample_calls (rng w) /\
    (choice_calls (rng (snd r))
     <= choice_calls (rng w) + length chosen)%nat /\
    (forall selection',
       fst r = inr selection' ->
       choice_calls (rng (snd r))
       = (choice_calls (rng w) + length chosen)%nat /\
       length selection' = (length selection + length chosen)%nat).
Proof.
  induction chosen as [|item rest IH]; intros selection w; cbn [for_each].
  - unfold ret; simpl. split; [reflexivity|]. split; [lia|].
    intros selection' Hr. inversion Hr; subst. lia.
  - unfold bind.
    pose proof (select_map_calls selection item w) as (Hs & Hle & Hok).
    destruct (select_map selection item w) as [[e|acc] w1]; simpl in *.
    + split; [assumption|]. split; [lia|]. intros ? Hr; discriminate.
    + destruct (Hok acc eq_refl) as [Hc Hl].
      specialize (IH acc w1). simpl in IH.
      destruct IH as (IHs & IHle & IHok).
      split; [lia|]. split; [lia|]. intros selection' Hr.
      destruct (IHok _ Hr). lia.
Qed.

End Counting.

(** X4. A call asks the random source for one sample at most.  A call that
    returns a selection asked for exactly one sample and for exactly one
    choice per definition of the selection; a call whose count is rejected
    asked for nothing. *)
Theorem pick_calls {G : Type} {RS : RandomSource G}
    (w : world (counted G)) (count : Z) :
  let r := pick_unique_mode_maps count w in
  (sample_calls (rng (snd r)) <= Datatypes.S (sample_calls (rng w)))%nat /\
  (forall selection,
     fst r = inr selection ->
     sample_calls (rng (snd r)) = Datatypes.S (sample_calls (rng w)) /\
     choice_calls (rng (snd r))
     = (choice_calls (rng w) + length selection)%nat) /\
  (~ 1 <= count <= Z.of_nat (length (table w)) ->
   sample_calls (rng (snd r)) = sample_calls (rng w) /\
   choice_calls (rng (snd r)) = choice_calls (rng w)).
Proof.
  intros r. subst r.
  destruct (Z_le_dec 1 count) as [Hlo|Hlo];
    [destruct (Z_le_dec count (Z.of_nat (length (table w)))) as [Hhi|Hhi]|];
    try (destruct (pick_rejects count w) as [msg Hmsg]; [lia|];
         rewrite Hmsg; simpl;
         split; [lia|]; split; [intros ? Hr; discriminate|];
         intros _; split; reflexivity).
  rewrite (pick_accepts count w (conj Hlo Hhi)). simpl.
  destruct (sample (table w) count (inner (rng w))) as [[e|chosen] s1];
    simpl.
  - split; [lia|]. split; [intros ? Hr; discriminate|]. intros Hbad; lia.
  - pose proof (for_each_calls chosen []
                  (World (table w)
                     (Counted s1 (Datatypes.S (sample_calls (rng w)))
                        (choice_calls (rng w)))))
      as (Hs & _ & Hok).
    simpl in Hs, Hok. split; [lia|]. split; [|intros Hbad; lia].
    intros selection Hr. destruct (Hok _ Hr) as [Hc Hl]. simpl in Hl. lia.
Qed.

(** X5. An error for a mode without maps comes after drawing: the source
    was asked for the sample and for one choice per mode selected before
    the faulty one. *)
Theorem pick_fails_after_drawing {G : Type} {RS : RandomSource G}
    {RL : RandomSourceLaws G} (w : world (counted G)) (count : Z)
    (before after : rotation) (m : string) (p : Payload) (c1 : counted G) :
  1 <= count <= Z.of_nat (length (table w)) ->
  sample (table w) count (rng w) = (inr (before ++ (m, p) :: after), c1) ->
  Forall configured before ->
  get (maps_key p) [] = [] ->
  exists w',
    pick_unique_mode_maps count w
    = (inl (ValueError (no_maps_message m)), w') /\
    sample_calls (rng w') = Datatypes.S (sample_calls (rng w)) /\
    choice_calls (rng w') = (choice_calls (rng w) + length before)%nat.
Proof.
  intros Hok Hs Hbefore He.
  rewrite (pick_accepts count w Hok), Hs.
  assert (Hc1 : sample_calls c1 = Datatypes.S (sample_calls (rng w)) /\
                choice_calls c1 = choice_calls (rng w)).
  { simpl in Hs.
    destruct (sample (table w) count (inner (rng w))) as [o s'].
    inversion Hs; subst. simpl. split; reflexivity. }
  destruct Hc1 as [Hc1s Hc1c]. rewrite <- Hc1s, <- Hc1c.
  change c1 with (rng (World (table w) c1)) at 2 3.
  generalize (World (table w) c1) as w1.
  generalize (@nil MapDefinition) as selection.
  clear Hs Hc1s Hc1c Hok c1.
  induction before as [|item rest IH]; intros selection w1;
    cbn [app for_each length].
  - unfold bind. rewrite (select_map_unconfigured _ _ _ _ He).
    exists w1. repeat split; lia.
  - inversion Hbefore as [|? ? Hitem Hrest]; subst.
    destruct (select_map_configured selection item w1 Hitem)
      as (d & s1 & Hstep & _).
    pose proof (select_map_calls selection item w1) as (Hss & _ & Hsc).
    unfold bind. rewrite Hstep in *. simpl in Hss, Hsc.
    destruct (Hsc _ eq_refl) as [Hcc _].
    destruct (IH Hrest (selection ++ [d]) (World (table w1) s1))
      as (w' & Hloop & Hs' & Hc').
    exists w'. simpl in Hs', Hc'. repeat split; [assumption|lia|lia].
Qed.

Lemma pick_fails_after_drawing_witness :
  1 <= 2 <= Z.of_nat (length mixed_table) /\
  Forall configured emojiless_table /\
  exists w',
    pick_unique_mode_maps 2
      (World mixed_table (Counted [0; 0; 0]%nat 0 0))
    = (inl (ValueError (no_maps_message "Solo")), w') /\
    sample_calls (rng w') = 1%nat /\
    choice_calls (rng w') = 1%nat.
Proof.
  assert (Hok : 1 <= 2 <= Z.of_nat (length mixed_table)) by (simpl; lia).
  assert (Hc : Forall configured emojiless_table).
  { constructor; [simpl; discriminate|constructor]. }
  split; [exact Hok|]. split; [exact Hc|].
  exact (pick_fails_after_drawing
           (World mixed_table (Counted [0; 0; 0]%nat 0 0)) 2
           emojiless_table [] "Solo"
           (Build_Payload (Some "<:S:1>"%string) None)
           (Counted [0]%nat 1 0) Hok eq_refl Hc eq_refl).
Defined.

(** ** Announcements taken apart *)

Lemma join_app (sep : string) (l1 : list string) :
  forall (a b : string) (l2 : list string),
    join sep ((a :: l1) ++ b :: l2)
    = (join sep (a :: l1) ++ sep ++ join sep (b :: l2))%string.
Proof.
  induction l1 as [|c l1 IH]; intros a b l2.
  - cbn [app]. now rewrite join_two.
  - cbn [app] in *. rewrite !join_two, IH. now rewrite !append_assoc.
Qed.

(** X7. The announcement of two selections put end to end is the two
    announcements with one newline between them, when neither is empty;
    an empty selection on either side adds nothing. *)
Theorem format_rotation_message_app (xs ys : list MapDefinition) :
  (xs <> [] -> ys <> [] ->
   format_rotation_message (xs ++ ys)
   = (format_rotation_message xs ++ newline
      ++ format_rotation_message ys)%string) /\
  format_rotation_message (xs ++ []) = format_rotation_message xs /\
  format_rotation_message ([] ++ ys) = format_rotation_message ys.
Proof.
  split; [|split].
  - intros Hx Hy. rewrite !format_lines, map_app.
    destruct xs as [|x xs]; [congruence|].
    destruct ys as [|y ys]; [congruence|].
    cbn [map]. apply join_app.
  - now rewrite app_nil_r.
  - reflexivity.
Qed.

Lemma format_rotation_message_app_witness :
  firstn 1 heist_bounty_gems <> [] /\
  skipn 1 heist_bounty_gems <> [] /\
  format_rotation_message heist_bounty_gems
  = (format_rotation_message (firstn 1 heist_bounty_gems) ++ newline
     ++ format_rotation_message (skipn 1 heist_bounty_gems))%string.
Proof.
  assert (Hx : firstn 1 heist_bounty_gems <> []) by discriminate.
  assert (Hy : skipn 1 heist_bounty_gems <> []) by discriminate.
  split; [exact Hx|]. split; [exact Hy|].
  exact (proj1 (format_rotation_message_app (firstn 1 heist_bounty_gems)
                  (skipn 1 heist_bounty_gems)) Hx Hy).
Defined.

Lemma append_nonempty (a b : string) :
  b <> EmptyString -> (a ++ b)%string <> EmptyString.
Proof.
  intros Hb. destruct a; simpl; [assumption|discriminate].
Qed.

Lemma announcement_line_nonempty (item : MapDefinition) :
  announcement_line item <> EmptyString.
Proof.
  unfold announcement_line. apply append_nonempty. discriminate.
Qed.

(** X8. The announcement is the empty string for the empty selection and
    for no other: every item contributes a line that is not empty, even
    when all its fields are. *)
Theorem format_rotation_message_empty (selection : list MapDefinition) :
  format_rotation_message selection = EmptyString <-> selection = [].
Proof.
  split; [|intros ->; reflexivity].
  destruct selection as [|item [|next rest]]; [reflexivity| |].
  - intros Hf. exfalso. exact (announcement_line_nonempty item Hf).
  - rewrite format_lines. cbn [map]. rewrite join_two. intros Hf.
    exfalso. revert Hf.
    destruct (announcement_line item) eqn:Hl; [|discriminate].
    now apply announcement_line_nonempty in Hl.
Qed.

Lemma split_lines_nonempty (s : string) :
  exists piece pieces, split_lines s = piece :: pieces.
Proof.
  induction s as [|c s (piece & pieces & IH)]; simpl; [eauto|].
  rewrite IH. destruct (Ascii.eqb c newline_char); eauto.
Qed.

Lemma no_newline_app (a b : string) :
  no_newline (a ++ b) = no_newline a && no_newline b.
Proof.
  induction a as [|c a IH]; simpl; [reflexivity|].
  now rewrite IH, andb_assoc.
Qed.

Lemma split_lines_plain (s : string) :
  no_newline s = true -> split_lines s = [s].
Proof.
  induction s as [|c s IH]; simpl; [reflexivity|].
  intros Hs. apply andb_prop in Hs as [Hc Hs]. rewrite (IH Hs).
  destruct (Ascii.eqb c newline_char); [discriminate|reflexivity].
Qed.

Lemma split_lines_at_newline (a b : string) :
  no_newline a = true ->
  split_lines (a ++ String newline_char b) = a :: split_lines b.
Proof.
  induction a as [|c a IH]; cbn [append split_lines no_newline].
  - intros _. destruct (split_lines_nonempty b) as (piece & pieces & Hb).
    now rewrite Hb, Ascii.eqb_refl.
  - intros Ha. apply andb_prop in Ha as [Hc Ha]. rewrite (IH Ha).
    destruct (Ascii.eqb c newline_char); [discriminate|reflexivity].
Qed.

Lemma split_lines_first (a b : string) :
  no_newline a = true ->
  split_lines (a ++ newline ++ b) = a :: split_lines b.
Proof.
  change (newline ++ b)%string with (String newline_char b).
  apply split_lines_at_newline.
Qed.

Lemma plain_line (d : MapDefinition) :
  plain d = true -> no_newline (announcement_line d) = true.
Proof.
  unfold plain, announcement_line. intros Hp.
  apply andb_prop in Hp as [Hp Hn]. apply andb_prop in Hp as [He Hm].
  rewrite !no_newline_app, He, Hm, Hn. reflexivity.
Qed.

Lemma split_lines_format (selection : list MapDefinition) :
  selection <> [] -> forallb plain selection = true ->
  split_lines (format_rotation_message selection)
  = map announcement_line selection.
Proof.
  rewrite format_lines.
  induction selection as [|item [|next rest] IH]; intros Hne Hp.
  - congruence.
  - simpl in Hp. rewrite andb_true_r in Hp.
    apply split_lines_plain. now apply plain_line.
  - cbn [forallb] in Hp. apply andb_prop in Hp as [Hitem Hrest].
    cbn [map] in *. rewrite join_two.
    rewrite split_lines_first by now apply plain_line.
    f_equal. apply IH; [discriminate|exact Hrest].
Qed.

(** X9. An announcement reads back: when no field of a non-empty selection
    holds a newline, splitting the announcement at its newlines gives the
    lines of the items, one per item and in order. *)
Theorem format_rotation_message_split (selection : list MapDefinition) :
  selection <> [] -> forallb plain selection = true ->
  split_lines (format_rotation_message selection)
  = map announcement_line selection /\
  length (split_lines (format_rotation_message selection))
  = length selection.
Proof.
  intros Hne Hp. rewrite (split_lines_format selection Hne Hp).
  split; [reflexivity|apply length_map].
Qed.

Lemma format_rotation_message_split_witness :
  heist_bounty_gems <> [] /\
  forallb plain heist_bounty_gems = true /\
  split_lines (format_rotation_message heist_bounty_gems)
  = map announcement_line heist_bounty_gems /\
  length (split_lines (format_rotation_message heist_bounty_gems))
  = length heist_bounty_gems.
Proof.
  assert (Hne : heist_bounty_gems <> []) by discriminate.
  assert (Hp : forallb plain heist_bounty_gems = true) by reflexivity.
  split; [exact Hne|]. split; [exact Hp|].
  exact (format_rotation_message_split heist_bounty_gems Hne Hp).
Defined.

(** ** From the table to the announcement *)

Lemma built_from_plain (item : string * Payload) (d : MapDefinition) :
  plain_entry item = true -> built_from item d -> plain d = true.
Proof.
  unfold plain_entry, plain. intros Hp (Hmode & Hmap & Hemoji).
  apply andb_prop in Hp as [Hp He]. apply andb_prop in Hp as [Hm Hmaps].
  rewrite forallb_forall in Hmaps.
  now rewrite Hmode, Hemoji, Hm, He, (Hmaps _ Hmap).
Qed.

(** X10. The announcement of a selection has one line per requested map:
    on a table whose modes all have maps and whose strings hold no
    newline, formatting what a call with a count in range returns gives
    [count] lines, the lines of the selected definitions in order. *)
Theorem format_of_pick {G : Type} {RS : RandomSource G}
    {RL : RandomSourceLaws G} (w : world G) (count : Z) :
  maps_configured (table w) ->
  plain_table (table w) = true ->
  1 <= count <= Z.of_nat (length (table w)) ->
  exists selection s2,
    pick_unique_mode_maps count w = (inr selection, World (table w) s2) /\
    split_lines (format_rotation_message selection)
    = map announcement_line selection /\
    Z.of_nat (length (split_lines (format_rotation_message selection)))
    = count.
Proof.
  intros Hconf Hplain Hok.
  destruct (pick_on_valid_table count w Hconf Hok)
    as (positions & chosen & s1 & selection & s2
        & Hs & Hd & Hnd & Hlen & Hpick & Hb).
  exists selection, s2. split; [assumption|].
  destruct (built_from_modes _ _ Hb) as [_ Hl].
  assert (Hne : selection <> []).
  { intros ->. simpl in Hl. lia. }
  assert (Hp : forallb plain selection = true).
  { apply forallb_forall. intros d Hin.
    destruct (built_from_source _ _ _ Hb Hin) as (item & Hitem & Hbuilt).
    apply built_from_plain with (item := item); [|assumption].
    unfold plain_table in Hplain. rewrite forallb_forall in Hplain.
    apply Hplain. apply drawn_at_In in Hd. rewrite Forall_forall in Hd.
    now apply Hd. }
  rewrite (split_lines_format selection Hne Hp).
  split; [reflexivity|]. rewrite length_map. lia.
Qed.

Lemma format_of_pick_witness :
  maps_configured MAP_ROTATION /\
  plain_table MAP_ROTATION = true /\
  1 <= 3 <= Z.of_nat (length MAP_ROTATION) /\
  exists selection s2,
    pick_unique_mode_maps 3 (World MAP_ROTATION seed0_draws)
    = (inr selection, World MAP_ROTATION s2) /\
    split_lines (format_rotation_message selection)
    = map announcement_line selection /\
    Z.of_nat (length (split_lines (format_rotation_message selection))) = 3.
Proof.
  assert (Hp : plain_table MAP_ROTATION = true) by reflexivity.
  assert (Hok : 1 <= 3 <= Z.of_nat (length MAP_ROTATION)) by (simpl; lia).
  split; [exact MAP_ROTATION_maps_configured|].
  split; [exact Hp|]. split; [exact Hok|].
  exact (format_of_pick (World MAP_ROTATION seed0_draws) 3
           MAP_ROTATION_maps_configured Hp Hok).
Defined.

(** ** The tests, whatever the seed *)

Lemma uses_rotation_entry_built (item : string * Payload)
    (d : MapDefinition) :
  In item MAP_ROTATION -> built_from item d ->
  uses_rotation_entry MAP_ROTATION d = true.
Proof.
  destruct item as [m p]. intros Hin (Hmode & Hmap & Hemoji).
  destruct (MAP_ROTATION_keys _ _ Hin) as (e & maps & ->).
  cbn [fst snd entry maps_key emoji_key get] in Hmode, Hmap, Hemoji.
  unfold uses_rotation_entry. rewrite Hmode.
  rewrite (lookup_unique _ _ _ MAP_ROTATION_unique_modes Hin).
  cbn [entry maps_key emoji_key]. rewrite Hemoji, String.eqb_refl.
  rewrite andb_true_r. apply existsb_exists.
  exists (map_name d). split; [assumption|apply String.eqb_refl].
Qed.

(** X11. The assertions of the first test do not depend on its seed: run
    on [MAP_ROTATION] with any random source in any state, the call
    returns three definitions, of three modes, each naming a map and the
    emoji of its mode's entry in the table. *)
Theorem returns_three_distinct_modes_any_seed {G : Type}
    {RS : RandomSource G} {RL : RandomSourceLaws G} (s : G) :
  returns_three_distinct_modes (World MAP_ROTATION s) = true.
Proof.
  unfold returns_three_distinct_modes.
  destruct (pick_on_valid_table 3 (World MAP_ROTATION s)
              MAP_ROTATION_maps_configured ltac:(simpl; lia))
    as (positions & chosen & s1 & selection & s2
        & Hs & Hd & Hnd & Hlen & Hpick & Hb).
  rewrite Hpick. cbn [table] in *.
  destruct (built_from_modes _ _ Hb) as [Hmodes Hl].
  assert (Hthree : length selection = 3%nat) by lia.
  assert (Hdistinct : NoDup (map mode selection)).
  { rewrite Hmodes.
    exact (drawn_at_distinct_modes _ _ _ MAP_ROTATION_unique_modes Hd Hnd). }
  unfold mode_set.
  rewrite (nodup_fixed_point string_dec Hdistinct), length_map, Hthree.
  cbn [Nat.eqb andb].
  apply forallb_forall. intros d Hin.
  destruct (built_from_source _ _ _ Hb Hin) as (item & Hitem & Hbuilt).
  apply uses_rotation_entry_built with (item := item); [|assumption].
  apply drawn_at_In in Hd. rewrite Forall_forall in Hd. now apply Hd.
Qed.

Lemma returns_three_distinct_modes_any_seed_witness :
  test_pick_unique_mode_maps_returns_three_distinct_modes = true.
Proof.
  exact (returns_three_distinct_modes_any_seed (Random 42)).
Defined.

(** X12. The third test passes in every store: a count of zero and a
    count one above the number of modes both raise [ValueError], on any
    table and with any random source. *)
Theorem rejects_invalid_count_any_store {G : Type} {RS : RandomSource G}
    (w : world G) :
  rejects_invalid_count w = true.
Proof.
  unfold rejects_invalid_count.
  rewrite pick_not_positive by lia.
  destruct (pick_rejects (Z.of_nat (length (table w)) + 1) w)
    as [msg Hmsg]; [lia|].
  now rewrite Hmsg.
Qed.
